(** * Derived conversion metrics of the vToken conversion pool

    A shallow embedding of [packages/api-derive/src/convert/convert.ts]:
    the pool-info reader, the price deriver, the annualized-rate deriver and
    their batch variants, over a model of the libraries the file calls
    (bn.js big integers, JavaScript numbers, rxjs observables and the
    memoization wrapper of the derive layer). *)

From Stdlib Require Import ZArith Lia Floats.SpecFloat.
From stdpp Require Import base option list strings gmap.

(** ** JavaScript values *)

Module JS.
#[local] Open Scope Z_scope.

(** What a [throw] carries: a failed library assertion, or an error that the
    chain client reports on a query stream. *)
Inductive exn : Type :=
| AssertionError (msg : string)
| ChainError (msg : string).

(** The outcome of evaluating a callback: it returns, or it throws. *)
Inductive completion (A : Type) : Type :=
| Return (a : A)
| Throw (e : exn).
Arguments Return {A} a.
Arguments Throw {A} e.

Definition bind {A B : Type} (c : completion A) (k : A -> completion B) : completion B :=
  match c with
  | Return a => k a
  | Throw e => Throw e
  end.

(** A [number] is an IEEE 754 binary64 value. *)
Definition number : Type := spec_float.
Definition prec : Z := 53.
Definition emax : Z := 1024.

(** The number nearest to an integer (ties to even): what a numeric literal
    and [Number("<decimal digits>")] evaluate to. *)
Definition ofZ (z : Z) : number := binary_normalize prec emax z 0 false.

Definition zero : number := S754_zero false.
Definition sub (x y : number) : number := SFsub prec emax x y.
Definition mul (x y : number) : number := SFmul prec emax x y.
Definition div (x y : number) : number := SFdiv prec emax x y.

(** [ToBoolean] on a number: false for [+0], [-0] and [NaN]. *)
Definition truthy (x : number) : bool :=
  match x with
  | S754_zero _ | S754_nan => false
  | _ => true
  end.

(** The integer part of the magnitude of a finite number. *)
Definition magnitude (m : positive) (e : Z) : Z := Z.shiftl (Zpos m) e.

End JS.

Export JS.

Notation "'let*' x ':=' c 'in' k" := (JS.bind c (fun x => k))
  (at level 10, x name, c at level 100, k at level 200).

(** ** bn.js *)

Module BN.
#[local] Open Scope Z_scope.

(** A [BN] object holds an integer of any size. *)
Definition t : Type := Z.

(** [new BN(b)] for [b] already a [BN]: the constructor hands [b] back. *)
Definition ofBN (b : t) : t := b.

(** [b.toNumber()]: the value as a number when it fits 53 bits; the library
    asserts otherwise. *)
Definition toNumber (b : t) : completion number :=
  if Z.abs b <? 2 ^ 53
  then Return (JS.ofZ b)
  else Throw (AssertionError "Number can only safely store up to 53 bits").

(** [new BN(x)] for a number [x]: the integer part of [x], with its sign;
    the constructor asserts [x < 0x20000000000000]. *)
Definition ofNumber (x : number) : completion t :=
  match x with
  | S754_zero _ => Return 0
  | S754_finite s m e =>
      if JS.magnitude m e <? 2 ^ 53
      then Return (cond_Zopp s (JS.magnitude m e))
      else Throw (AssertionError "Assertion failed")
  | _ => Throw (AssertionError "Assertion failed")
  end.

(** [a.div(b)]: the quotient truncated toward zero; the library asserts that
    the divisor is not zero. *)
Definition div (a b : t) : completion t :=
  if b =? 0
  then Throw (AssertionError "Assertion failed")
  else Return (Z.quot a b).

(** [b.toString()] read back by [Number(...)]: how an arithmetic operator of
    the language coerces a [BN] object. *)
Definition coerce (b : t) : number := JS.ofZ b.

End BN.

(** The values that travel on the price streams: a number, a [BN] object, or
    [undefined] (a missing array element). *)
Inductive jsvalue : Type :=
| JNumber (x : number)
| JBN (b : BN.t)
| JUndefined.
Arguments JBN b%_Z.

(** [ToNumber]. *)
Definition ToNumber (v : jsvalue) : number :=
  match v with
  | JNumber x => x
  | JBN b => BN.coerce b
  | JUndefined => S754_nan
  end.

(** [v !== 0]: values of different types are never strictly equal; two
    numbers are compared as numbers ([NaN] is unequal to everything, [-0]
    equals [0]). *)
Definition strict_neq_zero (v : jsvalue) : bool :=
  match v with
  | JNumber x => negb (SFeqb x JS.zero)
  | JBN _ => true
  | JUndefined => true
  end.

(** ** The pool state (./types) *)

Record convertPool : Type := {
  current_reward : BN.t;
  pending_reward : BN.t;
  token_pool : BN.t;
  vtoken_pool : BN.t
}.

(** A pool state whose two pool fields fit the safe-integer range of a
    number. *)
Definition safe_pool (p : convertPool) : Prop :=
  (Z.abs p.(token_pool) < 2 ^ 53)%Z /\ (Z.abs p.(vtoken_pool) < 2 ^ 53)%Z.

(** ** The callbacks of convert.ts *)

(** Lines 39-46: the raw record of the pool query becomes a pool state. *)
Definition toConvertPool (res : convertPool) : completion convertPool :=
  Return {| current_reward := BN.ofBN res.(current_reward);
            pending_reward := BN.ofBN res.(pending_reward);
            token_pool := BN.ofBN res.(token_pool);
            vtoken_pool := BN.ofBN res.(vtoken_pool) |}.

(** Lines 83-96: the price of one pool state.  The division is a parameter
    so that a statement can say whether the callback reaches it. *)
Definition convertPrice_with (bn_div : BN.t -> BN.t -> completion BN.t)
    (result : convertPool) : completion jsvalue :=
  let* n := BN.toNumber result.(token_pool) in
  let* tokenPool := BN.ofNumber n in
  let* c := BN.toNumber result.(vtoken_pool) in
  if JS.truthy c then
    let* n' := BN.toNumber result.(vtoken_pool) in
    let* vtokenPool := BN.ofNumber n' in
    let* q := bn_div tokenPool vtokenPool in
    Return (JBN q)
  else
    Return (JNumber JS.zero).

Definition convertPrice : convertPool -> completion jsvalue :=
  convertPrice_with BN.div.

(** Lines 150-160: the annualized rate of a pair of prices.  The array
    pattern [[currentPrice, historicalPrice]] reads the first two elements
    of the combined list. *)
Definition annualizedRate_with (num_div : number -> number -> number)
    (prices : list jsvalue) : completion number :=
  let currentPrice := default JUndefined (prices !! 0%nat) in
  let historicalPrice := default JUndefined (prices !! 1%nat) in
  if strict_neq_zero historicalPrice then
    Return (JS.mul
              (num_div
                 (num_div (JS.sub (ToNumber currentPrice) (ToNumber historicalPrice))
                          (ToNumber historicalPrice))
                 (JS.ofZ 7%Z))
              (JS.ofZ 365%Z))
  else
    Return JS.zero.

Definition annualizedRate : list jsvalue -> completion number :=
  annualizedRate_with JS.div.

(** ** rxjs *)

Module Rx.

(** What an observable hands to its subscriber. *)
Inductive notification (A : Type) : Type :=
| Next (a : A)
| Error (e : exn)
| Complete.
Arguments Next {A} a.
Arguments Error {A} e.
Arguments Complete {A}.

(** Time is a sequence of instants (ticks).  An observable is what a
    subscription made at tick [s] is handed [k] ticks later, in order; a
    source of the chain client is any such function, so every schedule of
    answers is covered. *)
Definition Observable (A : Type) : Type := nat -> nat -> list (notification A).

Definition is_terminal {A : Type} (n : notification A) : bool :=
  match n with
  | Next _ => false
  | _ => true
  end.

Definition is_complete {A : Type} (n : notification A) : bool :=
  match n with
  | Complete => true
  | _ => false
  end.

Fixpoint upto_terminal {A : Type} (l : list (notification A)) : list (notification A) :=
  match l with
  | [] => []
  | n :: l' => if is_terminal n then [n] else n :: upto_terminal l'
  end.

(** Everything [o] produced during the first [k] ticks of a subscription. *)
Definition produced {A : Type} (o : Observable A) (s k : nat) : list (notification A) :=
  flat_map (o s) (seq 0 k).

(** A subscriber is closed by the first [error] or [complete]: nothing is
    delivered to it afterwards. *)
Definition observe {A : Type} (o : Observable A) : Observable A :=
  fun s k =>
    if existsb is_terminal (produced o s k) then [] else upto_terminal (o s k).

(** Everything delivered during ticks [0 .. k] of a subscription. *)
Definition delivered {A : Type} (o : Observable A) (s k : nat) : list (notification A) :=
  flat_map (observe o s) (seq 0 (S k)).

(** The last value among notifications, and the latest value that [o]
    delivered before tick [k] of a subscription. *)
Fixpoint last_value {A : Type} (l : list (notification A)) : option A :=
  match l with
  | [] => None
  | n :: l' =>
      match last_value l' with
      | Some a => Some a
      | None => match n with Next a => Some a | _ => None end
      end
  end.

Definition latest {A : Type} (o : Observable A) (s k : nat) : option A :=
  last_value (flat_map (observe o s) (seq 0 k)).

(** *** [map(project)] : a callback that throws turns into [error]. *)
Definition project_notification {A B : Type} (project : A -> completion B)
    (n : notification A) : notification B :=
  match n with
  | Next a => match project a with
              | Return b => Next b
              | Throw e => Error e
              end
  | Error e => Error e
  | Complete => Complete
  end.

Definition map {A B : Type} (project : A -> completion B) (source : Observable A)
    : Observable B :=
  observe (fun s k => List.map (project_notification project) (observe source s k)).

(** *** [combineLatest(observables)] *)

(** The subscriber of [combineLatest]: the latest value of every source
    ([None] for a source that has not answered yet) and the number of
    sources that have not completed. *)
Record CombineLatestSubscriber (A : Type) : Type := {
  values : list (option A);
  active : nat
}.
Arguments values {A} _.
Arguments active {A} _.

Definition subscriber {A : Type} (n : nat) : CombineLatestSubscriber A :=
  {| values := replicate n None; active := n |}.

(** One notification of source [i]: [notifyNext] stores the value and, once
    every source has answered, emits a copy of [values]; [notifyComplete]
    completes the result when the last source completes; an error of any
    source is the error of the result. *)
Definition notify {A : Type} (st : CombineLatestSubscriber A) (ev : nat * notification A)
    : CombineLatestSubscriber A * list (notification (list A)) :=
  match ev with
  | (i, Next a) =>
      let vs := <[i := Some a]> st.(values) in
      ({| values := vs; active := st.(active) |},
       match mapM id vs with
       | Some l => [Next l]
       | None => []
       end)
  | (i, Error e) => (st, [Error e])
  | (i, Complete) =>
      ({| values := st.(values); active := pred st.(active) |},
       if Nat.eqb (pred st.(active)) 0 then [Complete] else [])
  end.

Fixpoint notify_all {A : Type} (st : CombineLatestSubscriber A)
    (evs : list (nat * notification A))
    : CombineLatestSubscriber A * list (notification (list A)) :=
  match evs with
  | [] => (st, [])
  | ev :: evs' =>
      let (st1, out1) := notify st ev in
      let (st2, out2) := notify_all st1 evs' in
      (st2, out1 ++ out2)
  end.

(** What the sources deliver at tick [k], each notification with the index
    of its source; the sources are subscribed in index order. *)
Definition arrivals {A : Type} (observables : list (Observable A)) (s k : nat)
    : list (nat * notification A) :=
  concat (imap (fun i o => List.map (pair i) (observe o s k)) observables).

(** The notifications of source [i] among tagged notifications, and the
    number of completions among them. *)
Definition of_source {A : Type} (i : nat) (evs : list (nat * notification A))
    : list (notification A) :=
  List.map snd (List.filter (fun ev => Nat.eqb ev.1 i) evs).

Definition completions {A : Type} (evs : list (nat * notification A)) : nat :=
  length (List.filter (fun ev => is_complete ev.2) evs).

(** What the subscriber emits at tick [k]: its state after the earlier
    ticks, then the notifications of this tick one by one. *)
Definition snapshots {A : Type} (observables : list (Observable A))
    : Observable (list A) :=
  fun s k =>
    let st := fst (notify_all (subscriber (length observables))
                              (flat_map (arrivals observables s) (seq 0 k))) in
    snd (notify_all st (arrivals observables s k)).

(** With no source at all the result completes at once. *)
Definition combineLatest {A : Type} (observables : list (Observable A))
    : Observable (list A) :=
  match observables with
  | [] => observe (fun _ k => match k with O => [Complete] | S _ => [] end)
  | _ => observe (snapshots observables)
  end.

(** *** [mergeMap(project)] *)

(** The inner subscriptions made during ticks [0 .. k]: the tick of each and
    the observable that [project] built for the outer value. *)
Definition inner_subscriptions {A B : Type} (project : A -> Observable B)
    (source : Observable A) (s k : nat) : list (nat * Observable B) :=
  flat_map
    (fun j => omap (fun n => match n with
                             | Next a => Some (j, project a)
                             | _ => None
                             end) (observe source s j))
    (seq 0 (S k)).

Definition errors_of {A B : Type} (l : list (notification A)) : list (notification B) :=
  omap (fun n => match n with Error e => Some (Error e) | _ => None end) l.

Definition mergeMap {A B : Type} (project : A -> Observable B) (source : Observable A)
    : Observable B :=
  observe (fun s k =>
    let inners := inner_subscriptions project source s k in
    flat_map (fun '(j, inner) =>
                List.filter (fun n => negb (is_complete n)) (observe inner (s + j) (k - j)))
             inners
    ++ errors_of (observe source s k)
    ++ (if existsb is_complete (delivered source s k)
           && forallb (fun '(j, inner) =>
                         existsb is_complete (delivered inner (s + j) (k - j))) inners
        then [Complete] else [])).

End Rx.

(** ** The memoization wrapper (@polkadot/api-derive/util) *)

Module Memo.

Section Table.
Context {Args T : Type} `{Countable Args}.
Variable instanceId : string.
Variable fn : Args -> Rx.Observable T.

(** Modelled from the spec: the table of one wrapped function, which
    convert.ts imports and does not define.  [entries] maps a key (the
    instance identifier and the argument tuple, compared by value) to the
    live stream stored for it, named by its position in [streams];
    [streams] holds every stream that [fn] has built, each with the
    arguments of that invocation, oldest first. *)
Record table : Type := {
  entries : gmap (string * Args) nat;
  streams : list (Args * Rx.Observable T)
}.

(** Modelled from the spec: [memo(instanceId, fn)] builds the wrapped
    function with an empty table. *)
Definition construct : table :=
  {| entries := ∅; streams := [] |}.

(** Modelled from the spec: one call of the wrapped function.  A live entry
    for the key is returned as it is; otherwise [fn] is invoked and its
    stream is stored under the key. *)
Definition call (tb : table) (args : Args) : nat * table :=
  match tb.(entries) !! (instanceId, args) with
  | Some h => (h, tb)
  | None =>
      let h := length tb.(streams) in
      (h, {| entries := <[(instanceId, args) := h]> tb.(entries);
             streams := tb.(streams) ++ [(args, fn args)] |})
  end.

(** Modelled from the spec: the last subscriber of the stream of [args]
    detaches and the entry is dropped. *)
Definition release (tb : table) (args : Args) : table :=
  {| entries := delete (instanceId, args) tb.(entries);
     streams := tb.(streams) |}.

(** Calls in a row, no subscriber detaching in between: the streams
    returned, and the table afterwards. *)
Fixpoint calls (tb : table) (l : list Args) : list nat * table :=
  match l with
  | [] => ([], tb)
  | args :: l' =>
      let (h, tb1) := call tb args in
      let (hs, tb2) := calls tb1 l' in
      (h :: hs, tb2)
  end.

(** How many times [fn] has been invoked with [args]. *)
Definition invocations (tb : table) (args : Args) : nat :=
  length (List.filter (fun e => bool_decide (e.1 = args)) tb.(streams)).

(** The stream a call returned. *)
Definition stream_of (tb : table) (h : nat) : option (Rx.Observable T) :=
  snd <$> tb.(streams) !! h.

(** What holds of a table as long as no entry is dropped: an entry names the
    stream that [fn] built for its arguments, and [fn] has run once for the
    keys that have an entry and never for the others. *)
Definition table_ok (tb : table) : Prop :=
  (forall args h, tb.(entries) !! (instanceId, args) = Some h ->
                  tb.(streams) !! h = Some (args, fn args))
  /\ (forall args, invocations tb args
                   = if tb.(entries) !! (instanceId, args) is Some _ then 1%nat else 0%nat).

End Table.

End Memo.

(** Modelled from the spec: the wrapped function has the signature of [fn],
    and the stream it returns for an argument tuple delivers what the
    stream that [fn] builds for that tuple delivers ([Memo] has the table
    that decides when [fn] runs). *)
Definition memo {Args T : Type} (instanceId : string) (fn : Args -> Rx.Observable T)
    : Args -> Rx.Observable T :=
  fn.

(** ** convert.ts *)

Section Convert.
Context {vToken BlockHash : Type}.

(** The chain client: [api.query.convert.pool(token)] and
    [api.query.convert.pool.at(hash, token)]. *)
Record ApiInterfaceRx : Type := {
  query_convert_pool : vToken -> Rx.Observable convertPool;
  query_convert_pool_at : BlockHash -> vToken -> Rx.Observable convertPool
}.

(** [bifrostVtokenList] of ../type and [getDesignatedBlockHash] of ../util. *)
Variable bifrostVtokenList : list vToken.
Variable getDesignatedBlockHash : string -> ApiInterfaceRx -> unit -> Rx.Observable BlockHash.

Definition getPoolInfo (instanceId : string) (api : ApiInterfaceRx)
    (tokenSymbol : vToken) (preBlockHash : option BlockHash) : Rx.Observable convertPool :=
  memo instanceId (fun '(tokenSymbol, preBlockHash) =>
    let result :=
      match preBlockHash with
      | None => api.(query_convert_pool) tokenSymbol
      | Some preBlockHash => api.(query_convert_pool_at) preBlockHash tokenSymbol
      end in
    Rx.map toConvertPool result) (tokenSymbol, preBlockHash).

Definition getAllVtokenConvertInfo (instanceId : string) (api : ApiInterfaceRx)
    (vTokenArray : option (list vToken)) : Rx.Observable (list convertPool) :=
  memo instanceId (fun vTokenArray : option (list vToken) =>
    let vTokenList :=
      match vTokenArray with
      | None => bifrostVtokenList
      | Some vTokenArray => vTokenArray
      end in
    let getPoolInfoQuery := getPoolInfo instanceId api in
    Rx.combineLatest (List.map (fun vtk => getPoolInfoQuery vtk None) vTokenList))
  vTokenArray.

Definition getConvertPriceInfo (instanceId : string) (api : ApiInterfaceRx)
    (tokenSymbol : vToken) (preBlockHash : option BlockHash) : Rx.Observable jsvalue :=
  memo instanceId (fun '(tokenSymbol, preBlockHash) =>
    let convertPoolQuery := getPoolInfo instanceId api in
    Rx.map convertPrice (convertPoolQuery tokenSymbol preBlockHash))
  (tokenSymbol, preBlockHash).

Definition getAllConvertPriceInfo (instanceId : string) (api : ApiInterfaceRx)
    (vTokenArray : option (list vToken)) : Rx.Observable (list jsvalue) :=
  memo instanceId (fun vTokenArray : option (list vToken) =>
    let vTokenList :=
      match vTokenArray with
      | None => bifrostVtokenList
      | Some vTokenArray => vTokenArray
      end in
    let getConvertPriceInfoQuery := getConvertPriceInfo instanceId api in
    Rx.combineLatest (List.map (fun vtk => getConvertPriceInfoQuery vtk None) vTokenList))
  vTokenArray.

(** Lines 131-149 of [getAnnualizedRate]: the current price and the price at
    the designated block, combined. *)
Definition pricePairs (instanceId : string) (api : ApiInterfaceRx)
    (tokenSymbol : vToken) : Rx.Observable (list jsvalue) :=
  let convertPriceQuery := getConvertPriceInfo instanceId api in
  let currentPrice' := convertPriceQuery tokenSymbol None in
  let preBlockHashQuery := getDesignatedBlockHash instanceId api in
  let historicalPrice' :=
    Rx.mergeMap (fun preHash => convertPriceQuery tokenSymbol (Some preHash))
                (preBlockHashQuery tt) in
  Rx.combineLatest [currentPrice'; historicalPrice'].

Definition getAnnualizedRate (instanceId : string) (api : ApiInterfaceRx)
    (tokenSymbol : vToken) : Rx.Observable number :=
  memo instanceId (fun tokenSymbol : vToken =>
    Rx.map annualizedRate (pricePairs instanceId api tokenSymbol))
  tokenSymbol.

Definition getAllAnnualizedRate (instanceId : string) (api : ApiInterfaceRx)
    (vTokenArray : option (list vToken)) : Rx.Observable (list number) :=
  memo instanceId (fun vTokenArray : option (list vToken) =>
    let vTokenList :=
      match vTokenArray with
      | None => bifrostVtokenList
      | Some vTokenArray => vTokenArray
      end in
    let getAnnualizedRateQuery := getAnnualizedRate instanceId api in
    Rx.combineLatest (List.map (fun vtk => getAnnualizedRateQuery vtk) vTokenList))
  vTokenArray.

(** Lines 200-203 of [getBatchConvertPrice]: the prices at the hashes of one
    list, combined. *)
Definition pricesAt (instanceId : string) (api : ApiInterfaceRx)
    (tokenSymbol : vToken) (blockHashList : list BlockHash) : Rx.Observable (list jsvalue) :=
  let getConvertPriceInfoQuery := getConvertPriceInfo instanceId api in
  Rx.combineLatest
    (List.map (fun blockHash => getConvertPriceInfoQuery tokenSymbol (Some blockHash))
              blockHashList).

Definition getBatchConvertPrice (instanceId : string) (api : ApiInterfaceRx)
    (tokenSymbol : vToken) (blockHashArray : Rx.Observable (list BlockHash))
    : Rx.Observable (list jsvalue) :=
  memo instanceId (fun '(tokenSymbol, blockHashArray) =>
    Rx.mergeMap (fun blockHashList : list BlockHash =>
                   pricesAt instanceId api tokenSymbol blockHashList)
                blockHashArray)
  (tokenSymbol, blockHashArray).

End Convert.

Arguments ApiInterfaceRx : clear implicits.

(** ** Scenarios *)

Module Scenario.
Import Rx.

Definition pool_state (token vtoken : Z) : convertPool :=
  {| current_reward := 0%Z; pending_reward := 0%Z;
     token_pool := token; vtoken_pool := vtoken |}.
Arguments pool_state (token vtoken)%_Z.

(** A query stream that answers once, at the tick of the subscription. *)
Definition answers_once (p : convertPool) : Observable convertPool :=
  fun _ k => match k with O => [Next p] | S _ => [] end.

(** A chain whose pool is [now] at the head and was [past] at every
    historical block, for every token. *)
Definition chain (now past : convertPool) : ApiInterfaceRx string string :=
  {| query_convert_pool := fun _ => answers_once now;
     query_convert_pool_at := fun _ _ => answers_once past |}.

(** A chain whose pool at the head depends on the token; the historical
    queries never answer. *)
Definition token_chain (pools : string -> convertPool) : ApiInterfaceRx string string :=
  {| query_convert_pool := fun token => answers_once (pools token);
     query_convert_pool_at := fun _ _ _ _ => [] |}.

(** The pools of two tokens. *)
Definition two_pools (token : string) : convertPool :=
  if bool_decide (token = "DOT") then pool_state 1000 100 else pool_state 30 7.

(** A resolver that names the block ["0xweekago"]. *)
Definition resolver : string -> ApiInterfaceRx string string -> unit -> Observable string :=
  fun _ _ _ _ k => match k with O => [Next "0xweekago"] | S _ => [] end.

(** A stream of hash lists: two hashes, then one, then none. *)
Definition hash_lists : Observable (list string) :=
  fun _ k =>
    match k with
    | 0 => [Next ["0xh1"; "0xh2"]]
    | 1 => [Next ["0xh3"]]
    | 2 => [Next []]
    | _ => []
    end%nat.

(** A stream that emits the empty hash list and nothing else. *)
Definition no_hashes : Observable (list string) :=
  fun _ k => match k with O => [Next []] | S _ => [] end.

(** A live query that answers once and then fails, and a historical query
    that answers and completes. *)
Definition answers_then_fails (p : convertPool) : Observable convertPool :=
  fun _ k =>
    match k with
    | 0 => [Next p]
    | 1 => [Error (ChainError "connection lost")]
    | _ => []
    end%nat.

Definition answers_and_completes (p : convertPool) : Observable convertPool :=
  fun _ k => match k with O => [Next p; Complete] | S _ => [] end.

Definition failing_chain (now past : convertPool) : ApiInterfaceRx string string :=
  {| query_convert_pool := fun _ => answers_then_fails now;
     query_convert_pool_at := fun _ _ => answers_and_completes past |}.

End Scenario.

(** * Properties *)

(** ** Numbers: an integer below [2^53] survives the trip through a number *)

Section Numbers.
#[local] Open Scope Z_scope.

Lemma digits2_pos_iter_xO (m d : positive) :
  digits2_pos (Pos.iter xO m d) = (digits2_pos m + d)%positive.
Proof.
  induction d as [|d IH] using Pos.peano_ind.
  - simpl. lia.
  - rewrite Pos.iter_succ. simpl. rewrite IH. lia.
Qed.

Lemma Zpos_iter_xO (m d : positive) :
  Zpos (Pos.iter xO m d) = Zpos m * 2 ^ Zpos d.
Proof.
  induction d as [|d IH] using Pos.peano_ind.
  - simpl. lia.
  - rewrite Pos.iter_succ, Pos2Z.inj_succ, Z.pow_succ_r by lia.
    change (Zpos (Pos.iter xO m d)~0) with (2 * Zpos (Pos.iter xO m d)).
    rewrite IH. lia.
Qed.

Lemma digits2_pos_lower (m : positive) : 2 ^ (Zpos (digits2_pos m) - 1) <= Zpos m.
Proof.
  induction m as [m IH|m IH|]; simpl digits2_pos; rewrite ?Pos2Z.inj_succ.
  - replace (Z.succ (Zpos (digits2_pos m)) - 1) with (Z.succ (Zpos (digits2_pos m) - 1)) by lia.
    rewrite Z.pow_succ_r by lia. lia.
  - replace (Z.succ (Zpos (digits2_pos m)) - 1) with (Z.succ (Zpos (digits2_pos m) - 1)) by lia.
    rewrite Z.pow_succ_r by lia. lia.
  - simpl. lia.
Qed.

Lemma digits2_pos_safe (m : positive) :
  Zpos m < 2 ^ 53 -> 1 <= Zpos (digits2_pos m) <= 53.
Proof.
  intros Hm. split; [lia|].
  destruct (Z_le_gt_dec (Zpos (digits2_pos m)) 53) as [Hle|Hgt]; [exact Hle|].
  pose proof (digits2_pos_lower m) as Hlo.
  assert (2 ^ 53 <= 2 ^ (Zpos (digits2_pos m) - 1)) by (apply Z.pow_le_mono_r; lia).
  lia.
Qed.

Lemma fexp_small (d : Z) : 1 <= d <= 53 -> fexp JS.prec JS.emax d = d - 53.
Proof.
  intros Hd. unfold fexp, emin, JS.prec, JS.emax.
  change IntDef.Z.max with Z.max. lia.
Qed.

Lemma shr_fexp_canonical (m : positive) (e : Z) :
  fexp JS.prec JS.emax (Zpos (digits2_pos m) + e) = e ->
  shr_fexp JS.prec JS.emax (Zpos m) e loc_Exact
  = (Build_shr_record (Zpos m) false false, e).
Proof.
  intros Hc. unfold shr_fexp. cbn [Zdigits2 shr_record_of_loc].
  change (IntDef.Z.add (Zpos (digits2_pos m)) e) with (Zpos (digits2_pos m) + e).
  rewrite Hc.
  change (IntDef.Z.sub e e) with (e - e). rewrite Z.sub_diag. reflexivity.
Qed.

Lemma binary_round_aux_canonical (s : bool) (m : positive) (e : Z) :
  fexp JS.prec JS.emax (Zpos (digits2_pos m) + e) = e -> e <= 971 ->
  binary_round_aux JS.prec JS.emax s (Zpos m) e loc_Exact = S754_finite s m e.
Proof.
  intros Hc He. unfold binary_round_aux.
  rewrite (shr_fexp_canonical m e Hc). cbn [shr_m loc_of_shr_record round_nearest_even].
  rewrite (shr_fexp_canonical m e Hc). cbn [shr_m].
  change (IntDef.Z.leb e (IntDef.Z.sub JS.emax JS.prec)) with (e <=? 971).
  destruct (Z.leb_spec e 971); [reflexivity | lia].
Qed.

(** Rounding an integer of at most 53 bits is exact. *)
Lemma binary_round_safe (s : bool) (m : positive) :
  Zpos m < 2 ^ 53 ->
  exists m' e', binary_round JS.prec JS.emax s m 0 = S754_finite s m' e'
                /\ JS.magnitude m' e' = Zpos m.
Proof.
  intros Hm. pose proof (digits2_pos_safe m Hm) as Hd.
  unfold binary_round, shl_align.
  change (IntDef.Z.add (Zpos (digits2_pos m)) 0) with (Zpos (digits2_pos m) + 0).
  rewrite Z.add_0_r, (fexp_small _ Hd).
  change (IntDef.Z.sub (Zpos (digits2_pos m) - 53) 0) with (Zpos (digits2_pos m) - 53 - 0).
  rewrite Z.sub_0_r.
  destruct (Zpos (digits2_pos m) - 53) as [|p|p] eqn:E; try lia.
  - rewrite binary_round_aux_canonical.
    + exists m, 0. split; reflexivity.
    + rewrite Z.add_0_r, (fexp_small _ Hd). exact E.
    + lia.
  - rewrite binary_round_aux_canonical.
    + exists (Pos.iter xO m p), (Z.neg p). split; [reflexivity|].
      unfold JS.magnitude. rewrite Zpos_iter_xO.
      change (Z.shiftl (Zpos m * 2 ^ Zpos p) (Z.neg p))
        with (Z.shiftr (Zpos m * 2 ^ Zpos p) (Zpos p)).
      rewrite Z.shiftr_div_pow2 by lia. apply Z.div_mul. lia.
    + rewrite digits2_pos_iter_xO.
      replace (Zpos (digits2_pos m + p) + Z.neg p) with (Zpos (digits2_pos m)) by lia.
      rewrite (fexp_small _ Hd). exact E.
    + lia.
Qed.

Lemma ofNumber_ofZ (z : Z) : Z.abs z < 2 ^ 53 -> BN.ofNumber (JS.ofZ z) = Return z.
Proof.
  intros Hz. destruct z as [|m|m]; [reflexivity| |].
  - destruct (binary_round_safe false m) as (m' & e' & Hr & Hs); [lia|].
    unfold JS.ofZ, binary_normalize. rewrite Hr. unfold BN.ofNumber. rewrite Hs.
    destruct (Z.ltb_spec (Zpos m) (2 ^ 53)); [reflexivity | lia].
  - destruct (binary_round_safe true m) as (m' & e' & Hr & Hs); [lia|].
    unfold JS.ofZ, binary_normalize. rewrite Hr. unfold BN.ofNumber. rewrite Hs.
    destruct (Z.ltb_spec (Zpos m) (2 ^ 53)); [reflexivity | lia].
Qed.

Lemma truthy_ofZ (z : Z) : Z.abs z < 2 ^ 53 -> JS.truthy (JS.ofZ z) = negb (z =? 0).
Proof.
  intros Hz. destruct z as [|m|m]; [reflexivity| |].
  - destruct (binary_round_safe false m) as (m' & e' & Hr & _); [lia|].
    unfold JS.ofZ, binary_normalize. rewrite Hr. reflexivity.
  - destruct (binary_round_safe true m) as (m' & e' & Hr & _); [lia|].
    unfold JS.ofZ, binary_normalize. rewrite Hr. reflexivity.
Qed.

End Numbers.

(** ** The price callback *)

Lemma convertPrice_with_safe (bn_div : BN.t -> BN.t -> completion BN.t) (p : convertPool) :
  safe_pool p ->
  convertPrice_with bn_div p =
    if (p.(vtoken_pool) =? 0)%Z then Return (JNumber JS.zero)
    else let* q := bn_div p.(token_pool) p.(vtoken_pool) in Return (JBN q).
Proof.
  intros [Ht Hv]. unfold convertPrice_with, BN.toNumber.
  destruct (Z.ltb_spec (Z.abs (token_pool p)) (2 ^ 53)); [|lia].
  destruct (Z.ltb_spec (Z.abs (vtoken_pool p)) (2 ^ 53)); [|lia].
  cbn [JS.bind]. rewrite (ofNumber_ofZ _ Ht). cbn [JS.bind].
  rewrite (truthy_ofZ _ Hv).
  destruct (Z.eqb_spec (vtoken_pool p) 0) as [E|E]; cbn [negb]; [reflexivity|].
  rewrite (ofNumber_ofZ _ Hv). reflexivity.
Qed.

Lemma convertPrice_with_unsafe (bn_div : BN.t -> BN.t -> completion BN.t) (p : convertPool) :
  (2 ^ 53 <= Z.abs p.(token_pool) \/ 2 ^ 53 <= Z.abs p.(vtoken_pool))%Z ->
  convertPrice_with bn_div p
  = Throw (AssertionError "Number can only safely store up to 53 bits").
Proof.
  intros Hu. unfold convertPrice_with, BN.toNumber.
  destruct (Z.ltb_spec (Z.abs (token_pool p)) (2 ^ 53)) as [Ht|Ht]; [|reflexivity].
  destruct (Z.ltb_spec (Z.abs (vtoken_pool p)) (2 ^ 53)) as [Hv|Hv]; [lia|].
  cbn [JS.bind]. rewrite (ofNumber_ofZ _ Ht). reflexivity.
Qed.

Lemma convertPrice_returns_safe (bn_div : BN.t -> BN.t -> completion BN.t)
    (p : convertPool) (v : jsvalue) :
  convertPrice_with bn_div p = Return v -> safe_pool p.
Proof.
  intros Hv. unfold safe_pool.
  destruct (Z.lt_ge_cases (Z.abs (token_pool p)) (2 ^ 53)) as [Ht|Ht];
    [destruct (Z.lt_ge_cases (Z.abs (vtoken_pool p)) (2 ^ 53)) as [Hu|Hu]|].
  - split; assumption.
  - rewrite convertPrice_with_unsafe in Hv by (right; exact Hu). discriminate.
  - rewrite convertPrice_with_unsafe in Hv by (left; exact Ht). discriminate.
Qed.

(** ** Observables: closing at the first terminal notification *)

Section Observe.
Import Rx.
Context {A : Type}.
Implicit Types (o : Observable A) (l : list (notification A)) (n : notification A).

Lemma upto_terminal_live l : existsb is_terminal l = false -> upto_terminal l = l.
Proof.
  induction l as [|n l IH]; [reflexivity|]. cbn [existsb upto_terminal].
  destruct (is_terminal n); cbn [orb]; [discriminate|]. intros H. now rewrite IH.
Qed.

Lemma upto_terminal_app l1 l2 :
  upto_terminal (l1 ++ l2)
  = if existsb is_terminal l1 then upto_terminal l1 else l1 ++ upto_terminal l2.
Proof.
  induction l1 as [|n l1 IH]; [reflexivity|]. cbn [app existsb upto_terminal].
  destruct (is_terminal n); cbn [orb]; [reflexivity|]. rewrite IH.
  now destruct (existsb is_terminal l1).
Qed.

Lemma upto_terminal_In n l : In n (upto_terminal l) -> In n l.
Proof.
  induction l as [|n' l IH]; [intros []|]. cbn [upto_terminal].
  destruct (is_terminal n').
  - intros [H|[]]. now left.
  - intros [H|H]; [now left | right; auto].
Qed.

(** A value is kept exactly when nothing terminal stands before it. *)
Lemma upto_terminal_Next a l :
  In (Next a) (upto_terminal l) <->
  exists l1 l2, l = l1 ++ Next a :: l2 /\ existsb is_terminal l1 = false.
Proof.
  split.
  - induction l as [|n l IH]; [intros []|]. cbn [upto_terminal].
    destruct (is_terminal n) eqn:Hn.
    + intros [->|[]]. discriminate Hn.
    + intros [->|H].
      * exists [], l. split; reflexivity.
      * destruct (IH H) as (l1 & l2 & -> & Hl). exists (n :: l1), l2.
        split; [reflexivity|]. cbn [existsb]. now rewrite Hn.
  - intros (l1 & l2 & -> & Hl). rewrite upto_terminal_app, Hl.
    apply in_or_app. right. cbn. now left.
Qed.

(** What has been delivered is the production cut at its first terminal. *)
Lemma delivered_upto_terminal o s k :
  flat_map (observe o s) (seq 0 k) = upto_terminal (produced o s k).
Proof.
  induction k as [|k IH]; [reflexivity|].
  unfold produced in *. rewrite seq_S, !flat_map_app, IH. cbn [flat_map plus].
  rewrite !app_nil_r, upto_terminal_app. unfold observe, produced.
  destruct (existsb is_terminal (flat_map (o s) (seq 0 k))) eqn:E.
  - now rewrite app_nil_r.
  - now rewrite (upto_terminal_live _ E).
Qed.

Lemma observe_In n o s k : In n (observe o s k) -> In n (o s k).
Proof.
  unfold observe. destruct (existsb _ _); [intros []|]. apply upto_terminal_In.
Qed.

Lemma observe_live n o s k :
  In n (observe o s k) -> existsb is_terminal (produced o s k) = false.
Proof. unfold observe. destruct (existsb _ _); [intros []|reflexivity]. Qed.

Lemma produced_In n o s k : In n (produced o s k) <-> exists j, (j < k)%nat /\ In n (o s j).
Proof.
  unfold produced. rewrite in_flat_map. split.
  - intros (j & Hj & Hn). exists j. split; [apply in_seq in Hj; lia|exact Hn].
  - intros (j & Hj & Hn). exists j. split; [apply in_seq; lia|exact Hn].
Qed.

Lemma delivered_In n o s k : In n (delivered o s k) <-> exists j, (j <= k)%nat /\ In n (observe o s j).
Proof.
  unfold delivered. rewrite in_flat_map. split.
  - intros (j & Hj & Hn). exists j. split; [apply in_seq in Hj; lia|exact Hn].
  - intros (j & Hj & Hn). exists j. split; [apply in_seq; lia|exact Hn].
Qed.

Lemma existsb_false_In (f : notification A -> bool) l n :
  existsb f l = false -> In n l -> f n = false.
Proof.
  intros H Hn. destruct (f n) eqn:E; [|reflexivity].
  assert (existsb f l = true) by (apply existsb_exists; eauto). congruence.
Qed.

(** Nothing follows a terminal notification. *)
Lemma observe_closed n o s j k :
  In n (o s j) -> is_terminal n = true -> (j < k)%nat -> observe o s k = [].
Proof.
  intros Hn Ht Hjk. unfold observe.
  assert (existsb is_terminal (produced o s k) = true) as ->; [|reflexivity].
  apply existsb_exists. exists n. split; [|exact Ht]. apply produced_In. eauto.
Qed.

(** Observing a sealed observable changes nothing. *)
Lemma observe_idem o s k : observe (observe o) s k = observe o s k.
Proof.
  unfold observe at 1.
  change (produced (observe o) s k) with (flat_map (observe o s) (seq 0 k)).
  rewrite delivered_upto_terminal.
  destruct (existsb is_terminal (upto_terminal (produced o s k))) eqn:E.
  - unfold observe.
    assert (existsb is_terminal (produced o s k) = true) as ->; [|reflexivity].
    apply existsb_exists in E as (n & Hn & Ht). apply existsb_exists.
    exists n. split; [now apply upto_terminal_In|exact Ht].
  - unfold observe. destruct (existsb is_terminal (produced o s k)); [reflexivity|].
    induction (o s k) as [|n l IH]; [reflexivity|]. cbn [upto_terminal].
    destruct (is_terminal n) eqn:Hn; cbn [upto_terminal]; rewrite Hn; [reflexivity|].
    now rewrite IH.
Qed.

(** A sealed stream that still delivers at tick [k] has produced nothing
    terminal before, so its earlier ticks were delivered whole. *)
Lemma observe_earlier n o s j k :
  In n (observe o s k) -> (j < k)%nat -> observe o s j = o s j
                                       /\ existsb is_terminal (o s j) = false.
Proof.
  intros Hn Hjk. pose proof (observe_live _ _ _ _ Hn) as Hl.
  assert (Hj : existsb is_terminal (o s j) = false).
  { destruct (existsb is_terminal (o s j)) eqn:E; [|reflexivity].
    apply existsb_exists in E as (n' & Hn' & Ht).
    assert (existsb is_terminal (produced o s k) = true); [|congruence].
    apply existsb_exists. exists n'. split; [|exact Ht]. apply produced_In. eauto. }
  split; [|exact Hj]. unfold observe.
  assert (existsb is_terminal (produced o s j) = false) as ->.
  { destruct (existsb is_terminal (produced o s j)) eqn:E; [|reflexivity].
    apply existsb_exists in E as (n' & Hn' & Ht). apply produced_In in Hn' as (i & Hi & Hn').
    assert (existsb is_terminal (produced o s k) = true); [|congruence].
    apply existsb_exists. exists n'. split; [|exact Ht]. apply produced_In. exists i. split; [lia|exact Hn']. }
  now apply upto_terminal_live.
Qed.

End Observe.

(** ** [map]: every value goes through the callback until one throws *)

Section MapFacts.
Import Rx.
Context {A B : Type}.
Variable project : A -> completion B.
Variable source : Observable A.

Lemma project_notification_terminal (n : notification A) :
  is_terminal n = false ->
  is_terminal (project_notification project n) = true ->
  exists e, project_notification project n = Error e.
Proof.
  destruct n as [a| |]; try discriminate. intros _. cbn.
  destruct (project a); [discriminate|]. eauto.
Qed.

(** A value of the mapped stream is the callback's result on a value that
    the source delivers at that tick. *)
Lemma map_Next_inv (b : B) (s k : nat) :
  In (Next b) (map project source s k) ->
  exists a, In (Next a) (observe source s k) /\ project a = Return b.
Proof.
  intros H. apply observe_In, in_map_iff in H as (n & Hn & Hin).
  destruct n as [a| |]; try discriminate. exists a. split; [exact Hin|].
  cbn in Hn. destruct (project a); congruence.
Qed.

(** While the callback returns on everything delivered so far, each value
    of the source is answered by the callback's result at the same tick. *)
Lemma map_Next_intro (a : A) (b : B) (s k : nat) :
  In (Next a) (observe source s k) ->
  project a = Return b ->
  (forall j q, (j <= k)%nat -> In (Next q) (observe source s j) ->
               exists c, project q = Return c) ->
  In (Next b) (map project source s k).
Proof.
  intros Ha Hb Htot. unfold map. unfold observe at 1.
  assert (Hpast : existsb is_terminal
            (produced (fun s k => List.map (project_notification project) (observe source s k)) s k)
          = false).
  { destruct (existsb _ _) eqn:E; [|reflexivity]. exfalso.
    apply existsb_exists in E as (n & Hn & Ht).
    apply produced_In in Hn as (j & Hj & Hn).
    apply in_map_iff in Hn as (n0 & <- & Hn0).
    destruct (observe_earlier _ _ _ j _ Ha Hj) as [Heq Hlive].
    rewrite Heq in Hn0.
    pose proof (existsb_false_In _ _ _ Hlive Hn0) as Hnt.
    destruct n0 as [q| |]; try discriminate.
    destruct (Htot j q) as [c Hc]; [lia|now rewrite Heq|].
    cbn in Ht. rewrite Hc in Ht. discriminate. }
  rewrite Hpast.
  rewrite <- observe_idem in Ha. unfold observe at 1 in Ha.
  destruct (existsb is_terminal (produced (observe source) s k)); [destruct Ha|].
  apply upto_terminal_Next in Ha as (l1 & l2 & Heq & Hl1).
  apply upto_terminal_Next.
  exists (List.map (project_notification project) l1),
         (List.map (project_notification project) l2).
  split.
  - rewrite Heq, List.map_app. cbn. now rewrite Hb.
  - destruct (existsb is_terminal (List.map (project_notification project) l1)) eqn:E;
      [|reflexivity]. exfalso.
    apply existsb_exists in E as (n & Hn & Ht).
    apply in_map_iff in Hn as (n0 & <- & Hn0).
    pose proof (existsb_false_In _ _ _ Hl1 Hn0) as Hnt.
    destruct n0 as [q| |]; try discriminate.
    destruct (Htot k q) as [c Hc]; [lia| |].
    + rewrite Heq. apply in_or_app. now left.
    + cbn in Ht. rewrite Hc in Ht. discriminate.
Qed.

Lemma upto_terminal_first (l1 l2 : list (notification B)) (n : notification B) :
  is_terminal n = true ->
  exists n', In n' (upto_terminal (l1 ++ n :: l2)) /\ is_terminal n' = true
             /\ In n' (l1 ++ [n]).
Proof.
  intros Hn. induction l1 as [|n1 l1 IH]; cbn [app upto_terminal].
  - rewrite Hn. exists n. repeat split; [now left|exact Hn|now left].
  - destruct (is_terminal n1) eqn:E.
    + exists n1. repeat split; [now left|exact E|now left].
    + destruct IH as (n' & H1 & H2 & H3). exists n'. repeat split; [now right|exact H2|now right].
Qed.

Lemma produced_map (s k : nat) :
  produced (fun s k => List.map (project_notification project) (observe source s k)) s k
  = List.map (project_notification project) (upto_terminal (produced source s k)).
Proof.
  rewrite <- delivered_upto_terminal. unfold produced.
  induction (seq 0 k) as [|j js IH]; [reflexivity|].
  cbn [flat_map]. now rewrite List.map_app, IH.
Qed.

(** A value on which the callback throws closes the mapped stream with an
    error, at that tick or before, and nothing is delivered afterwards. *)
Lemma map_Next_throw (a : A) (e : exn) (s k : nat) :
  In (Next a) (observe source s k) ->
  project a = Throw e ->
  (exists j e', (j <= k)%nat /\ In (Error e') (map project source s j))
  /\ (forall k', (k < k')%nat -> map project source s k' = []).
Proof.
  intros Ha He. split.
  - assert (Hd : In (Next a) (upto_terminal (produced source s (S k)))).
    { rewrite <- delivered_upto_terminal. apply in_flat_map. exists k.
      split; [apply in_seq; lia|exact Ha]. }
    apply upto_terminal_Next in Hd as (l1 & l2 & Heq & Hl1).
    assert (Hcut : upto_terminal (produced source s (S k)) = l1 ++ Next a :: upto_terminal l2).
    { rewrite Heq, upto_terminal_app, Hl1. reflexivity. }
    destruct (upto_terminal_first (List.map (project_notification project) l1)
                (List.map (project_notification project) (upto_terminal l2))
                (Error e) eq_refl) as (n' & Hin & Ht & Hfrom).
    assert (Herr : exists e', n' = Error e').
    { apply in_app_or in Hfrom as [Hfrom|[<-|[]]]; [|eauto].
      apply in_map_iff in Hfrom as (n0 & <- & Hn0).
      apply project_notification_terminal; [|exact Ht].
      exact (existsb_false_In _ _ _ Hl1 Hn0). }
    destruct Herr as [e' ->].
    assert (Hdel : In (Error e') (delivered
               (fun s k => List.map (project_notification project) (observe source s k)) s k)).
    { unfold delivered. rewrite delivered_upto_terminal, produced_map, Hcut, List.map_app.
      cbn [List.map project_notification]. rewrite He. exact Hin. }
    apply delivered_In in Hdel as (j & Hj & Hdel). exists j, e'. split; [exact Hj|exact Hdel].
  - intros k' Hk. unfold map.
    apply (observe_closed (Error e) _ s k k'); [|reflexivity|exact Hk].
    apply in_map_iff. exists (Next a). split; [cbn; now rewrite He|exact Ha].
Qed.

End MapFacts.

(** ** [combineLatest]: a snapshot of the latest value of every source *)

Section CombineLatestFacts.
Import Rx.
Context {A : Type}.
Implicit Types (st : CombineLatestSubscriber A) (evs : list (nat * notification A)).

Lemma mapM_id_lookup (vs : list (option A)) (l : list A) :
  mapM id vs = Some l ->
  length l = length vs /\ forall i x, l !! i = Some x -> vs !! i = Some (Some x).
Proof.
  intros H. apply mapM_Some in H. split.
  - symmetry. exact (Forall2_length _ _ _ H).
  - intros i x Hi. destruct (Forall2_lookup_r _ _ _ _ _ H Hi) as (v & Hv & Hvx).
    cbn in Hvx. now subst v.
Qed.

Lemma notify_length st ev : length (values (notify st ev).1) = length (values st).
Proof.
  destruct ev as [i [a|e|]]; cbn; [|reflexivity..]. now rewrite length_insert.
Qed.

Lemma notify_all_length st evs :
  length (values (notify_all st evs).1) = length (values st).
Proof.
  revert st. induction evs as [|ev evs IH]; intros st; [reflexivity|].
  cbn [notify_all]. pose proof (notify_length st ev) as Hl.
  destruct (notify st ev) as [st1 out1]. specialize (IH st1).
  destruct (notify_all st1 evs) as [st2 out2]. cbn in *. congruence.
Qed.

(** A filled slot holds a value that its own source delivered. *)
Lemma notify_origin st ev i x :
  values (notify st ev).1 !! i = Some (Some x) ->
  values st !! i = Some (Some x) \/ ev = (i, Next x).
Proof.
  destruct ev as [i' [a|e|]]; cbn; [|now left..].
  intros H. apply list_lookup_insert_Some in H as [(-> & E & _)|[_ H]]; [|now left].
  right. congruence.
Qed.

Lemma notify_all_origin st evs i x :
  values (notify_all st evs).1 !! i = Some (Some x) ->
  values st !! i = Some (Some x) \/ In (i, Next x) evs.
Proof.
  revert st. induction evs as [|ev evs IH]; intros st; [now left|].
  cbn [notify_all]. pose proof (notify_origin st ev i x) as Ho.
  destruct (notify st ev) as [st1 out1]. specialize (IH st1).
  destruct (notify_all st1 evs) as [st2 out2]. cbn in *.
  intros H. destruct (IH H) as [H1|H1]; [|right; now right].
  destruct (Ho H1) as [H2|H2]; [now left|right; now left].
Qed.

Lemma notify_emission st ev l :
  In (Next l) (notify st ev).2 ->
  length l = length (values st)
  /\ forall i x, l !! i = Some x -> values st !! i = Some (Some x) \/ ev = (i, Next x).
Proof.
  destruct ev as [i' [a|e|]]; cbn.
  - destruct (mapM id (<[i':=Some a]> (values st))) as [l'|] eqn:E; [|intros []].
    intros [[= ->]|[]]. apply mapM_id_lookup in E as [Hlen Hlook].
    rewrite length_insert in Hlen. split; [exact Hlen|].
    intros i x Hi. apply (notify_origin st (i', Next a)). cbn. auto.
  - intros [[=]|[]].
  - destruct (Nat.eqb _ _); [intros [[=]|[]]|intros []].
Qed.

(** Every emitted list has one element per slot, and its [i]-th element is a
    value that was in slot [i] or that source [i] delivers among [evs]. *)
Lemma notify_all_emission st evs l :
  In (Next l) (notify_all st evs).2 ->
  length l = length (values st)
  /\ forall i x, l !! i = Some x -> values st !! i = Some (Some x) \/ In (i, Next x) evs.
Proof.
  revert st. induction evs as [|ev evs IH]; intros st; [intros []|].
  cbn [notify_all]. pose proof (notify_emission st ev l) as He.
  pose proof (notify_length st ev) as Hlen. pose proof (notify_origin st ev) as Ho.
  destruct (notify st ev) as [st1 out1]. specialize (IH st1).
  destruct (notify_all st1 evs) as [st2 out2]. cbn in *.
  intros H. apply in_app_or in H as [H|H].
  - destruct (He H) as [H1 H2]. split; [exact H1|].
    intros i x Hi. destruct (H2 i x Hi) as [H3|H3]; [now left|right; now left].
  - destruct (IH H) as [H1 H2]. split; [congruence|].
    intros i x Hi. destruct (H2 i x Hi) as [H3|H3]; [|right; now right].
    destruct (Ho i x H3) as [H4|H4]; [now left|right; now left].
Qed.

Lemma arrivals_In (observables : list (Observable A)) s k i (n : notification A) :
  In (i, n) (arrivals observables s k) <->
  exists o, observables !! i = Some o /\ In n (observe o s k).
Proof.
  unfold arrivals. rewrite in_concat. split.
  - intros (evs & Hevs & Hin). apply list_elem_of_In, elem_of_lookup_imap in Hevs
      as (i' & o & -> & Ho).
    apply in_map_iff in Hin as (n' & [= <- <-] & Hn'). eauto.
  - intros (o & Ho & Hn). exists (List.map (pair i) (observe o s k)). split.
    + apply list_elem_of_In, elem_of_lookup_imap. eauto.
    + apply in_map_iff. eauto.
Qed.

(** Every list that [combineLatest] emits has the length of the list of
    sources, and its [i]-th element is a value that the [i]-th source has
    delivered by then. *)
Lemma combineLatest_Next_inv (observables : list (Observable A)) s k (l : list A) :
  In (Next l) (combineLatest observables s k) ->
  length l = length observables
  /\ forall i x, l !! i = Some x ->
       exists o j, observables !! i = Some o /\ (j <= k)%nat /\ In (Next x) (observe o s j).
Proof.
  destruct observables as [|o0 os] eqn:Eos.
  - intros H. apply observe_In in H. destruct k; [destruct H as [[=]|[]]|destruct H].
  - change (combineLatest (o0 :: os)) with (observe (snapshots (o0 :: os))).
    rewrite <- Eos. intros H. apply observe_In in H. unfold snapshots in H.
    apply notify_all_emission in H as [Hlen Hel].
    rewrite notify_all_length in Hlen. cbn in Hlen. rewrite length_replicate in Hlen.
    split; [exact Hlen|]. intros i x Hi.
    destruct (Hel i x Hi) as [Hst|Hnow].
    + apply notify_all_origin in Hst as [Hinit|Hpast].
      * cbn in Hinit. apply lookup_replicate in Hinit as [[=] _].
      * apply in_flat_map in Hpast as (j & Hj & Hev). apply in_seq in Hj.
        apply arrivals_In in Hev as (o & Ho & Hn). exists o, j. repeat split; [exact Ho|lia|exact Hn].
    + apply arrivals_In in Hnow as (o & Ho & Hn). exists o, k. repeat split; [exact Ho|lia|exact Hn].
Qed.

(** No source, no list: the result completes at once. *)
Lemma combineLatest_nil s k :
  combineLatest (A := A) [] s k = match k with O => [Complete] | S _ => [] end.
Proof.
  unfold combineLatest. destruct k as [|k]; [reflexivity|].
  unfold observe. now destruct (existsb _ _).
Qed.

End CombineLatestFacts.

(** ** [mergeMap]: every value comes from one inner subscription *)

Section MergeMapFacts.
Import Rx.
Context {A B : Type}.
Variable project : A -> Observable B.
Variable source : Observable A.

Lemma inner_subscriptions_In (s k j : nat) (inner : Observable B) :
  In (j, inner) (inner_subscriptions project source s k) <->
  exists a, (j <= k)%nat /\ In (Next a) (observe source s j) /\ inner = project a.
Proof.
  unfold inner_subscriptions. rewrite in_flat_map. split.
  - intros (j' & Hj' & Hin). apply in_seq in Hj'.
    apply list_elem_of_In, list_elem_of_omap in Hin as (n & Hn & Hsome).
    apply list_elem_of_In in Hn. destruct n as [a| |]; try discriminate.
    injection Hsome as <- <-. exists a. repeat split; [lia|exact Hn].
  - intros (a & Hj & Ha & ->). exists j. split; [apply in_seq; lia|].
    apply list_elem_of_In, list_elem_of_omap. exists (Next a).
    split; [now apply list_elem_of_In|reflexivity].
Qed.

Lemma errors_of_In (l : list (notification A)) (n : notification B) :
  In n (errors_of l) -> is_terminal n = true.
Proof.
  unfold errors_of. intros H. apply list_elem_of_In, list_elem_of_omap in H as (n0 & _ & H).
  destruct n0; try discriminate. now injection H as <-.
Qed.

(** A value of the result was delivered by the inner observable built for
    some value of the source, subscribed at the tick of that value. *)
Lemma mergeMap_Next_inv (b : B) (s k : nat) :
  In (Next b) (mergeMap project source s k) ->
  exists j a, (j <= k)%nat /\ In (Next a) (observe source s j)
              /\ In (Next b) (observe (project a) (s + j) (k - j)).
Proof.
  intros H. apply observe_In in H. apply in_app_or in H as [H|H].
  - apply in_flat_map in H as ([j inner] & Hsub & Hin).
    apply filter_In in Hin as [Hin _].
    apply inner_subscriptions_In in Hsub as (a & Hj & Ha & ->). eauto 6.
  - apply in_app_or in H as [H|H].
    + apply errors_of_In in H. discriminate.
    + destruct (_ && _); [destruct H as [[=]|[]]|destruct H].
Qed.

End MergeMapFacts.

(** ** [combineLatest]: when a list is emitted *)

Section CombineLatestLive.
Import Rx.
Context {A : Type}.
Implicit Types (st : CombineLatestSubscriber A) (evs : list (nat * notification A)).

Lemma notify_all_app st evs1 evs2 :
  notify_all st (evs1 ++ evs2)
  = ((notify_all (notify_all st evs1).1 evs2).1,
     (notify_all st evs1).2 ++ (notify_all (notify_all st evs1).1 evs2).2).
Proof.
  revert st. induction evs1 as [|ev evs1 IH]; intros st.
  - cbn. now destruct (notify_all st evs2).
  - cbn [app notify_all]. destruct (notify st ev) as [st1 out1]. rewrite IH.
    destruct (notify_all st1 evs1) as [st2 out2]. cbn. now rewrite app_assoc.
Qed.

Lemma produced_S {T : Type} (o : Observable T) s k :
  produced o s (S k) = produced o s k ++ o s k.
Proof.
  unfold produced. rewrite seq_S, flat_map_app. cbn. now rewrite app_nil_r.
Qed.

(** The raw emissions of the first [k] ticks are those of one run over all
    the notifications of these ticks. *)
Lemma produced_snapshots (observables : list (Observable A)) s k :
  produced (snapshots observables) s k
  = (notify_all (subscriber (length observables))
                (flat_map (arrivals observables s) (seq 0 k))).2.
Proof.
  induction k as [|k IH]; [reflexivity|].
  rewrite produced_S, IH, seq_S, flat_map_app, notify_all_app. cbn [flat_map snd plus].
  now rewrite app_nil_r.
Qed.

Lemma completions_app evs1 evs2 :
  completions (evs1 ++ evs2) = (completions evs1 + completions evs2)%nat.
Proof. unfold completions. now rewrite List.filter_app, length_app. Qed.

Lemma active_after st evs :
  active (notify_all st evs).1 = (active st - completions evs)%nat.
Proof.
  revert st. induction evs as [|[i [a|e|]] evs IH]; intros st.
  - cbn. lia.
  - cbn [notify_all notify]. specialize (IH {| values := <[i:=Some a]> (values st); active := active st |}).
    destruct (notify_all _ evs). cbn in *. exact IH.
  - cbn [notify_all notify]. specialize (IH st). destruct (notify_all st evs). cbn in *. exact IH.
  - cbn [notify_all notify]. specialize (IH {| values := values st; active := pred (active st) |}).
    destruct (notify_all _ evs). cbn in *. unfold completions in *. cbn. lia.
Qed.

(** Without an error among the notifications, and with fewer completions
    than sources still active, nothing terminal is emitted. *)
Lemma notify_all_quiet st evs (n : notification (list A)) :
  (forall i e, ~ In (i, Error e) evs) ->
  (completions evs < active st)%nat ->
  In n (notify_all st evs).2 -> is_terminal n = false.
Proof.
  revert st. induction evs as [|[i [a|e|]] evs IH]; intros st Herr Hc; [intros []| | |].
  - cbn [notify_all notify].
    specialize (IH {| values := <[i:=Some a]> (values st); active := active st |}).
    destruct (notify_all _ evs) as [st2 out2]. cbn [snd]. intros Hn.
    apply in_app_or in Hn as [Hn|Hn].
    + destruct (mapM id _); [destruct Hn as [<-|[]]; reflexivity|destruct Hn].
    + apply IH; [intros i' e' H'; apply (Herr i' e'); now right|exact Hc|exact Hn].
  - exfalso. apply (Herr i e). now left.
  - cbn [notify_all notify].
    specialize (IH {| values := values st; active := pred (active st) |}).
    destruct (notify_all _ evs) as [st2 out2]. cbn [snd]. intros Hn.
    unfold completions in Hc. cbn in Hc.
    apply in_app_or in Hn as [Hn|Hn].
    + destruct (Nat.eqb_spec (pred (active st)) 0); [lia|destruct Hn].
    + apply IH; [intros i' e' H'; apply (Herr i' e'); now right| |exact Hn].
      cbn. unfold completions. lia.
Qed.

(** A slot that a source has filled stays filled. *)
Lemma notify_all_filled st evs i :
  (i < length (values st))%nat ->
  (exists y, values st !! i = Some (Some y)) \/ (exists x, In (i, Next x) evs) ->
  exists y, values (notify_all st evs).1 !! i = Some (Some y).
Proof.
  revert st. induction evs as [|[i' n] evs IH]; intros st Hi Hor.
  - destruct Hor as [H|[x []]]. exact H.
  - cbn [notify_all]. pose proof (notify_length st (i', n)) as Hlen.
    assert (Hstep : (exists y, values (notify st (i', n)).1 !! i = Some (Some y))
                    \/ exists x, In (i, Next x) evs).
    { destruct Hor as [[y Hy]|[x [Hx|Hx]]].
      - left. destruct n as [a|e|]; cbn; eauto.
        destruct (decide (i' = i)) as [->|Hne].
        + exists a. now apply list_lookup_insert_eq.
        + exists y. now rewrite list_lookup_insert_ne.
      - injection Hx as -> ->. left. exists x. cbn. now apply list_lookup_insert_eq.
      - right. eauto. }
    destruct (notify st (i', n)) as [st1 out1]. cbn [fst] in *.
    specialize (IH st1). destruct (notify_all st1 evs) as [st2 out2]. cbn [fst] in *.
    apply IH; [lia|exact Hstep].
Qed.

Lemma mapM_id_filled (vs : list (option A)) :
  (forall i, (i < length vs)%nat -> exists y, vs !! i = Some (Some y)) ->
  exists l, mapM id vs = Some l.
Proof.
  intros H. apply (proj2 (mapM_is_Some id vs)). apply Forall_lookup. intros i v Hv.
  destruct (H i) as [y Hy]; [now apply lookup_lt_Some in Hv|]. cbn.
  rewrite Hy in Hv. injection Hv as <-. eauto.
Qed.

End CombineLatestLive.

(** *** Counting completions, source by source *)

Section Completions.
Import Rx.
Context {A : Type}.
Implicit Types (evs : list (nat * notification A)) (l : list (notification A)).

Lemma of_source_app i evs1 evs2 :
  of_source i (evs1 ++ evs2) = of_source i evs1 ++ of_source i evs2.
Proof. unfold of_source. now rewrite List.filter_app, List.map_app. Qed.

Lemma of_source_tagged i t l :
  of_source i (List.map (pair t) l) = if Nat.eqb t i then l else [].
Proof.
  unfold of_source. induction l as [|n l IH]; cbn; [now destruct (Nat.eqb t i)|].
  destruct (Nat.eqb t i) eqn:E; cbn; [now rewrite IH|exact IH].
Qed.

Lemma of_source_blocks (f : nat -> Observable A -> list (notification A))
    (observables : list (Observable A)) (off i : nat) :
  of_source i (concat (imap (fun i' o => List.map (pair (off + i')%nat) (f i' o)) observables))
  = if Nat.leb off i
    then match observables !! (i - off)%nat with
         | Some o => f (i - off)%nat o
         | None => []
         end
    else [].
Proof.
  revert f off. induction observables as [|o os IH]; intros f off.
  - cbn. now destruct (Nat.leb off i).
  - rewrite imap_cons. cbn [concat]. rewrite of_source_app, of_source_tagged.
    rewrite (imap_ext _ (fun i' o' => List.map (pair (S off + i')%nat) (f (S i') o')));
      [|intros i' o' _; cbn; f_equal; f_equal; lia].
    rewrite (IH (fun i' => f (S i')) (S off)).
    destruct (Nat.eqb_spec (off + 0) i) as [E|E].
    + assert (off = i) as -> by lia. rewrite Nat.leb_refl, Nat.sub_diag.
      assert ((S i <=? i) = false) as -> by (apply Nat.leb_gt; lia).
      cbn. apply app_nil_r.
    + cbn [app]. destruct (Nat.leb_spec (S off) i); destruct (Nat.leb_spec off i); try lia;
        [|reflexivity].
      replace (i - off)%nat with (S (i - S off)) by lia. reflexivity.
Qed.

(** Among the arrivals of a tick, those of source [i] are what it delivers. *)
Lemma of_source_arrivals (observables : list (Observable A)) s k i :
  of_source i (arrivals observables s k)
  = match observables !! i with
    | Some o => observe o s k
    | None => []
    end.
Proof.
  pose proof (of_source_blocks (fun _ o => observe o s k) observables 0 i) as H.
  cbn [Nat.add Nat.leb] in H. rewrite Nat.sub_0_r in H. exact H.
Qed.

Lemma of_source_history (observables : list (Observable A)) s i (ticks : list nat) :
  of_source i (flat_map (arrivals observables s) ticks)
  = match observables !! i with
    | Some o => flat_map (observe o s) ticks
    | None => []
    end.
Proof.
  induction ticks as [|j ticks IH]; cbn [flat_map].
  - now destruct (observables !! i).
  - rewrite of_source_app, IH, of_source_arrivals. now destruct (observables !! i).
Qed.

(** In a sealed stream a terminal notification comes last. *)
Lemma upto_terminal_split l (l1 l2 : list (notification A)) (n : notification A) :
  upto_terminal l = l1 ++ n :: l2 -> existsb is_terminal l1 = false.
Proof.
  revert l1. induction l as [|n' l IH]; intros l1 Heq.
  - destruct l1; discriminate.
  - cbn [upto_terminal] in Heq. destruct (is_terminal n') eqn:E.
    + destruct l1 as [|n1 [|? ?]]; try discriminate. reflexivity.
    + destruct l1 as [|n1 l1]; [reflexivity|]. injection Heq as <- Heq.
      cbn [existsb]. rewrite E. cbn. exact (IH _ Heq).
Qed.

Lemma upto_terminal_one_terminal l :
  (length (List.filter is_terminal (upto_terminal l)) <= 1)%nat.
Proof.
  induction l as [|n l IH]; cbn [upto_terminal]; [cbn; lia|].
  destruct (is_terminal n) eqn:E; cbn [List.filter]; rewrite E; cbn; [lia|exact IH].
Qed.

Lemma complete_le_terminal l :
  (length (List.filter is_complete l) <= length (List.filter is_terminal l))%nat.
Proof.
  induction l as [|[a|e|] l IH]; cbn; lia.
Qed.

(** The completions of source [i] are those among its notifications. *)
Lemma count_completions_of_source evs i :
  count_occ Nat.eq_dec (List.map fst (List.filter (fun ev => is_complete ev.2) evs)) i
  = length (List.filter is_complete (of_source i evs)).
Proof.
  unfold of_source. induction evs as [|[t n] evs IH]; [reflexivity|].
  cbn [List.filter fst snd]. destruct (is_complete n) eqn:En; destruct (Nat.eqb_spec t i) as [->|Hne];
    cbn [List.map List.filter count_occ fst snd]; rewrite ?En.
  - destruct (Nat.eq_dec i i); [|contradiction]. cbn. now rewrite IH.
  - destruct (Nat.eq_dec t i); [contradiction|]. exact IH.
  - exact IH.
  - exact IH.
Qed.

(** Pigeonhole: when every source has completed at most once and one source
    not at all, the completions are fewer than the sources. *)
Lemma completions_lt evs (n i0 : nat) :
  (i0 < n)%nat ->
  (forall i m, In (i, m) evs -> (i < n)%nat) ->
  (forall i, (length (List.filter is_complete (of_source i evs)) <= 1)%nat) ->
  length (List.filter is_complete (of_source i0 evs)) = 0%nat ->
  (completions evs < n)%nat.
Proof.
  intros Hi0 Htags Hone Hnone. unfold completions.
  set (cidx := List.map fst (List.filter (fun ev => is_complete ev.2) evs)).
  assert (Hlen : length cidx = length (List.filter (fun ev => is_complete ev.2) evs))
    by apply length_map.
  rewrite <- Hlen.
  assert (Hnd : List.NoDup (i0 :: cidx)).
  { constructor.
    - apply (count_occ_not_In Nat.eq_dec). unfold cidx.
      now rewrite count_completions_of_source.
    - apply (NoDup_count_occ Nat.eq_dec). intros i. unfold cidx.
      rewrite count_completions_of_source. apply Hone. }
  assert (Hincl : incl (i0 :: cidx) (seq 0 n)).
  { intros i [<-|Hi]; apply in_seq; [lia|].
    unfold cidx in Hi. apply in_map_iff in Hi as ([t m] & <- & Hin).
    apply filter_In in Hin as [Hin _]. cbn. pose proof (Htags _ _ Hin). lia. }
  pose proof (NoDup_incl_length Hnd Hincl) as Hle. rewrite length_seq in Hle.
  cbn in Hle. lia.
Qed.

End Completions.

(** *** The slots hold the latest values *)

Section CombineLatestLatest.
Import Rx.
Context {A : Type}.
Implicit Types (st : CombineLatestSubscriber A) (evs : list (nat * notification A)).

Lemma last_value_app (l1 l2 : list (notification A)) :
  last_value (l1 ++ l2)
  = match last_value l2 with
    | Some a => Some a
    | None => last_value l1
    end.
Proof.
  induction l1 as [|n l1 IH]; cbn [app last_value].
  - now destruct (last_value l2).
  - rewrite IH. now destruct (last_value l2).
Qed.

Lemma last_value_In (l : list (notification A)) (a : A) :
  last_value l = Some a -> In (Next a) l.
Proof.
  induction l as [|n l IH]; [discriminate|]. cbn [last_value].
  destruct (last_value l) as [a'|].
  - intros [= ->]. right. now apply IH.
  - destruct n; try discriminate. intros [= ->]. now left.
Qed.

Lemma of_source_cons i t (n : notification A) evs :
  of_source i ((t, n) :: evs) = (if Nat.eqb t i then [n] else []) ++ of_source i evs.
Proof. unfold of_source. cbn. now destruct (Nat.eqb t i). Qed.

(** After any notifications, slot [i] holds the last value of source [i]
    among them, or what it held before when there is none. *)
Lemma slot_latest st evs i :
  (i < length (values st))%nat ->
  values (notify_all st evs).1 !! i
  = Some (match last_value (of_source i evs) with
          | Some a => Some a
          | None => default None (values st !! i)
          end).
Proof.
  revert st. induction evs as [|[t n] evs IH]; intros st Hi.
  - cbn. destruct (lookup_lt_is_Some_2 _ _ Hi) as [v ->]. reflexivity.
  - cbn [notify_all]. pose proof (notify_length st (t, n)) as Hlen.
    assert (Hslot : default None (values (notify st (t, n)).1 !! i)
                    = match last_value (if Nat.eqb t i then [n] else []) with
                      | Some a => Some a
                      | None => default None (values st !! i)
                      end).
    { destruct n as [a|e|]; cbn [notify fst values]; destruct (Nat.eqb_spec t i) as [->|Hne];
        cbn [last_value]; try reflexivity.
      - now rewrite list_lookup_insert_eq.
      - now rewrite list_lookup_insert_ne. }
    destruct (notify st (t, n)) as [st1 out1]. cbn [fst] in *.
    specialize (IH st1). destruct (notify_all st1 evs) as [st2 out2]. cbn [fst] in *.
    rewrite IH by lia. rewrite of_source_cons, last_value_app, Hslot.
    now destruct (last_value (of_source i evs)).
Qed.

(** An emitted list is the content of the slots after some of the
    notifications. *)
Lemma notify_all_snapshot st evs (l : list A) :
  In (Next l) (notify_all st evs).2 ->
  exists evs1 evs2, evs = evs1 ++ evs2
                    /\ mapM id (values (notify_all st evs1).1) = Some l.
Proof.
  revert st. induction evs as [|[t n] evs IH]; intros st; [intros []|].
  cbn [notify_all]. destruct (notify st (t, n)) as [st1 out1] eqn:En.
  specialize (IH st1). destruct (notify_all st1 evs) as [st2 out2] eqn:Ea. cbn [snd].
  intros H. apply in_app_or in H as [H|H].
  - exists [(t, n)], evs. split; [reflexivity|]. cbn [notify_all]. rewrite En. cbn [fst].
    destruct n as [a|e|]; cbn in En; injection En as <- <-.
    + destruct (mapM id _) as [l'|] eqn:El; [|destruct H].
      destruct H as [[= ->]|[]]. reflexivity.
    + destruct H as [[=]|[]].
    + destruct (Nat.eqb _ _); [destruct H as [[=]|[]]|destruct H].
  - destruct (IH H) as (evs1 & evs2 & -> & Hl). exists ((t, n) :: evs1), evs2.
    split; [reflexivity|]. cbn [notify_all]. rewrite En.
    destruct (notify_all st1 evs1). exact Hl.
Qed.

(** Every list that [combineLatest] emits has one element per source, and
    its [i]-th element is a value that the [i]-th source delivers at this
    tick or, failing that, the latest value it delivered before. *)
Lemma combineLatest_Next_latest (observables : list (Observable A)) s k (l : list A) :
  In (Next l) (combineLatest observables s k) ->
  length l = length observables
  /\ forall i x, l !! i = Some x ->
       exists o, observables !! i = Some o
                 /\ (In (Next x) (observe o s k) \/ latest o s k = Some x).
Proof.
  intros H. pose proof (combineLatest_Next_inv _ _ _ _ H) as [Hlen Hfrom].
  split; [exact Hlen|]. intros i x Hi.
  destruct (Hfrom i x Hi) as (o & _ & Ho & _). exists o. split; [exact Ho|].
  destruct observables as [|o0 os] eqn:Eos; [now rewrite lookup_nil in Ho|].
  change (combineLatest (o0 :: os)) with (observe (snapshots (o0 :: os))) in H.
  rewrite <- Eos in *. apply observe_In in H. unfold snapshots in H.
  apply notify_all_snapshot in H as (evs1 & evs2 & Harr & Hl).
  apply mapM_id_lookup in Hl as [_ Hl]. specialize (Hl i x Hi).
  assert (Hi' : (i < length observables)%nat) by (now apply lookup_lt_Some in Ho).
  rewrite slot_latest in Hl
    by (rewrite notify_all_length; cbn; now rewrite length_replicate).
  injection Hl as Hl.
  destruct (last_value (of_source i evs1)) as [a|] eqn:Enow.
  - left. assert (a = x) as -> by congruence. apply last_value_In in Enow.
    assert (In (Next x) (of_source i (arrivals observables s k))) as Hin
      by (rewrite Harr, of_source_app; apply in_or_app; now left).
    now rewrite of_source_arrivals, Ho in Hin.
  - right. rewrite slot_latest in Hl by (cbn; now rewrite length_replicate).
    cbn [default from_option id] in Hl.
    rewrite of_source_history, Ho in Hl. unfold latest.
    destruct (last_value (flat_map (observe o s) (seq 0 k))) as [a|]; [congruence|].
    cbn in Hl. rewrite lookup_replicate_2 in Hl by exact Hi'. discriminate.
Qed.

Lemma latest_In (o : Observable A) s k (x : A) :
  latest o s k = Some x -> exists j, (j < k)%nat /\ In (Next x) (observe o s j).
Proof.
  unfold latest. intros H. apply last_value_In, in_flat_map in H as (j & Hj & H).
  apply in_seq in Hj. exists j. split; [lia|exact H].
Qed.

End CombineLatestLatest.

Section CombineLatestEmits.
Import Rx.
Context {A : Type}.

Lemma last_Next_event (evs : list (nat * notification A)) :
  (exists i x, In (i, Next x) evs) ->
  exists before i x after,
    evs = before ++ (i, Next x) :: after /\ forall i' x', ~ In (i', Next x') after.
Proof.
  induction evs as [|ev evs IH]; [intros (? & ? & [])|]. intros (i & x & Hin).
  destruct (existsb (fun ev => negb (is_terminal ev.2)) evs) eqn:E.
  - apply existsb_exists in E as ([i1 n1] & Hin1 & Hn1). destruct n1 as [x1| |]; try discriminate.
    destruct IH as (before & i2 & x2 & after & -> & Hafter); [eauto|].
    exists (ev :: before), i2, x2, after. split; [reflexivity|exact Hafter].
  - assert (Hnone : forall i' x', ~ In (i', Next x') evs).
    { intros i' x' H'. assert (existsb (fun ev => negb (is_terminal ev.2)) evs = true);
        [|congruence]. apply existsb_exists. exists (i', Next x'). split; [exact H'|reflexivity]. }
    destruct Hin as [->|Hin]; [|now apply Hnone in Hin].
    exists [], i, x, evs. split; [reflexivity|exact Hnone].
Qed.

Lemma filter_complete_live (l : list (notification A)) :
  existsb is_terminal l = false -> List.filter is_complete l = [].
Proof.
  induction l as [|[a|e|] l IH]; cbn; try discriminate; [reflexivity|exact IH].
Qed.

Lemma combineLatest_snapshots (os : list (Observable A)) :
  os <> [] -> combineLatest os = observe (snapshots os).
Proof. destruct os; [contradiction|reflexivity]. Qed.

Variable observables : list (Observable A).
Variables s k : nat.

(** Every source has delivered a value by tick [k], one of them at tick
    [k], and none has failed. *)
Hypothesis all_answered :
  forall i o, observables !! i = Some o ->
    exists j x, (j <= k)%nat /\ In (Next x) (observe o s j).
Hypothesis one_answers :
  exists i o x, observables !! i = Some o /\ In (Next x) (observe o s k).
Hypothesis none_fails :
  forall i o j e, observables !! i = Some o -> (j <= k)%nat -> ~ In (Error e) (observe o s j).

Lemma history_tags (ticks : list nat) i (m : notification A) :
  In (i, m) (flat_map (arrivals observables s) ticks) ->
  exists o j, observables !! i = Some o /\ In j ticks /\ In m (observe o s j).
Proof.
  intros H. apply in_flat_map in H as (j & Hj & H).
  apply arrivals_In in H as (o & Ho & Hm). eauto.
Qed.

Lemma of_source_through (i : nat) :
  of_source i (flat_map (arrivals observables s) (seq 0 (S k)))
  = upto_terminal (match observables !! i with
                   | Some o => produced o s (S k)
                   | None => []
                   end).
Proof.
  rewrite of_source_history. destruct (observables !! i) as [o|]; [|reflexivity].
  apply delivered_upto_terminal.
Qed.

(** Then a list is emitted at tick [k]. *)
Lemma combineLatest_emits : exists l, In (Next l) (combineLatest observables s k).
Proof.
  destruct one_answers as (i1 & o1 & x1 & Ho1 & Hx1).
  assert (Hne : observables <> []) by (intros ->; discriminate).
  destruct (last_Next_event (arrivals observables s k))
    as (P & i0 & x0 & R & HA & HR); [exists i1, x1; apply arrivals_In; eauto|].
  set (n := length observables).
  set (past := flat_map (arrivals observables s) (seq 0 k)).
  assert (Hthrough : flat_map (arrivals observables s) (seq 0 (S k))
                     = (past ++ P) ++ (i0, Next x0) :: R).
  { rewrite seq_S, flat_map_app. cbn [flat_map plus]. rewrite app_nil_r, HA.
    now rewrite <- app_assoc. }
  assert (Hi0 : (i0 < n)%nat).
  { assert (In (i0, Next x0) (arrivals observables s k)) as Hin
      by (rewrite HA; apply in_or_app; right; now left).
    apply arrivals_In in Hin as (o & Ho & _). now apply lookup_lt_Some in Ho. }
  assert (Htags : forall i m, In (i, m) (past ++ P) -> (i < n)%nat).
  { intros i m Hin.
    assert (In (i, m) (flat_map (arrivals observables s) (seq 0 (S k)))) as Hin'
      by (rewrite Hthrough; apply in_or_app; now left).
    apply history_tags in Hin' as (o & _ & Ho & _). now apply lookup_lt_Some in Ho. }
  assert (Hnoerr : forall i e, ~ In (i, Error e) (past ++ P)).
  { intros i e Hin.
    assert (In (i, Error e) (flat_map (arrivals observables s) (seq 0 (S k)))) as Hin'
      by (rewrite Hthrough; apply in_or_app; now left).
    apply history_tags in Hin' as (o & j & Ho & Hj & He). apply in_seq in Hj.
    apply (none_fails i o j e Ho); [lia|exact He]. }
  assert (Hsplit : forall i,
            of_source i (past ++ P) ++ of_source i ((i0, Next x0) :: R)
            = upto_terminal (match observables !! i with
                             | Some o => produced o s (S k)
                             | None => []
                             end)).
  { intros i. rewrite <- of_source_app, <- Hthrough. apply of_source_through. }
  assert (Hcount : (completions (past ++ P) < n)%nat).
  { apply (completions_lt _ n i0 Hi0 Htags).
    - intros i. pose proof (Hsplit i) as Hs.
      pose proof (upto_terminal_one_terminal
                    (match observables !! i with
                     | Some o => produced o s (S k)
                     | None => []
                     end)) as Hone.
      rewrite <- Hs, List.filter_app, length_app in Hone.
      pose proof (complete_le_terminal (of_source i (past ++ P))). lia.
    - pose proof (Hsplit i0) as Hs. unfold of_source at 2 in Hs.
      cbn [List.filter fst snd] in Hs. rewrite Nat.eqb_refl in Hs. cbn [List.map snd] in Hs.
      symmetry in Hs. apply upto_terminal_split in Hs.
      now rewrite (filter_complete_live _ Hs). }
  assert (Hcount_past : (completions past < n)%nat)
    by (rewrite completions_app in Hcount; lia).
  (* nothing terminal before tick [k] *)
  assert (Hquiet : existsb is_terminal (produced (snapshots observables) s k) = false).
  { destruct (existsb _ _) eqn:E; [|reflexivity]. exfalso.
    apply existsb_exists in E as (m & Hm & Ht). rewrite produced_snapshots in Hm.
    apply notify_all_quiet in Hm; [congruence| |exact Hcount_past].
    intros i e Hin. apply (Hnoerr i e). apply in_or_app. now left. }
  (* the state before the last value of tick [k] *)
  set (st_past := (notify_all (subscriber n) past).1).
  set (st_P := (notify_all st_past P).1).
  assert (HstP : st_P = (notify_all (subscriber n) (past ++ P)).1)
    by (rewrite notify_all_app; reflexivity).
  assert (Hlen : length (values st_P) = n).
  { rewrite HstP, notify_all_length. cbn. apply length_replicate. }
  destruct (mapM_id_filled (<[i0:=Some x0]> (values st_P))) as [l Hl].
  { intros i Hi. rewrite length_insert, Hlen in Hi.
    destruct (decide (i = i0)) as [->|Hne0].
    - exists x0. apply list_lookup_insert_eq. lia.
    - rewrite list_lookup_insert_ne by congruence. rewrite HstP.
      apply notify_all_filled; [cbn; rewrite length_replicate; exact Hi|]. right.
      destruct (lookup_lt_is_Some_2 observables i Hi) as [o Ho].
      destruct (all_answered i o Ho) as (j & x & Hj & Hx). exists x.
      destruct (decide (j = k)) as [->|Hjk].
      + assert (In (i, Next x) (arrivals observables s k)) as Hin
          by (apply arrivals_In; eauto).
        rewrite HA in Hin. apply in_app_or in Hin as [Hin|[Hin|Hin]].
        * apply in_or_app. now right.
        * congruence.
        * now apply HR in Hin.
      + apply in_or_app. left. apply in_flat_map. exists j.
        split; [apply in_seq; lia|apply arrivals_In; eauto]. }
  exists l. rewrite (combineLatest_snapshots _ Hne).
  unfold observe. rewrite Hquiet. apply upto_terminal_Next.
  assert (Hraw : snapshots observables s k
                 = (notify_all st_past P).2
                   ++ Next l :: (notify_all (notify st_P (i0, Next x0)).1 R).2).
  { unfold snapshots. fold n. fold past. fold st_past. rewrite HA, notify_all_app.
    cbn [snd]. fold st_P. f_equal. cbn [notify_all].
    destruct (notify st_P (i0, Next x0)) as [st1 out1] eqn:En.
    cbn [notify] in En. rewrite Hl in En. injection En as <- <-.
    cbn [fst]. destruct (notify_all _ R). reflexivity. }
  eexists _, _. split; [exact Hraw|].
  destruct (existsb is_terminal (notify_all st_past P).2) eqn:E; [|reflexivity]. exfalso.
  apply existsb_exists in E as (m & Hm & Ht).
  apply notify_all_quiet in Hm; [congruence| |].
  - intros i e Hin. apply (Hnoerr i e). apply in_or_app. now right.
  - unfold st_past. rewrite active_after. cbn [subscriber active].
    rewrite completions_app in Hcount. lia.
Qed.

End CombineLatestEmits.

Section CombineLatestErrors.
Import Rx.
Context {A : Type}.

Lemma notify_all_Error (st : CombineLatestSubscriber A) evs (e : exn) :
  In (Error e) (notify_all st evs).2 -> exists i, In (i, Error e) evs.
Proof.
  revert st. induction evs as [|[i n] evs IH]; intros st; [intros []|].
  cbn [notify_all]. destruct (notify st (i, n)) as [st1 out1] eqn:En.
  specialize (IH st1). destruct (notify_all st1 evs) as [st2 out2]. cbn [snd] in *.
  intros H. apply in_app_or in H as [H|H].
  - destruct n as [a|e'|]; cbn in En; injection En as <- <-.
    + destruct (mapM id _); [destruct H as [[=]|[]]|destruct H].
    + destruct H as [[= ->]|[]]. exists i. now left.
    + destruct (Nat.eqb _ _); [destruct H as [[=]|[]]|destruct H].
  - destruct (IH H) as [i' Hi']. exists i'. now right.
Qed.

(** An error of the result is the error of a source, at the same tick. *)
Lemma combineLatest_Error_inv (observables : list (Observable A)) s k (e : exn) :
  In (Error e) (combineLatest observables s k) ->
  exists i o, observables !! i = Some o /\ In (Error e) (observe o s k).
Proof.
  destruct observables as [|o0 os] eqn:Eos.
  - intros H. apply observe_In in H. destruct k; [destruct H as [[=]|[]]|destruct H].
  - change (combineLatest (o0 :: os)) with (observe (snapshots (o0 :: os))).
    rewrite <- Eos. intros H. apply observe_In in H. unfold snapshots in H.
    apply notify_all_Error in H as [i Hi]. apply arrivals_In in Hi as (o & Ho & He). eauto.
Qed.

End CombineLatestErrors.

(** ** [mergeMap]: when a value of an inner observable gets through *)

Section MergeMapLive.
Import Rx.
Context {A B : Type}.
Variable project : A -> Observable B.
Variable source : Observable A.
Variables s k : nat.

(** Neither the source nor an inner observable has failed by tick [k]. *)
Hypothesis source_sound : forall j e, (j <= k)%nat -> ~ In (Error e) (observe source s j).
Hypothesis inner_sound :
  forall j a t e, (j <= k)%nat -> In (Next a) (observe source s j) -> (t <= k - j)%nat ->
                  ~ In (Error e) (observe (project a) (s + j) t).

Lemma errors_of_inv (l : list (notification A)) (n : notification B) :
  In n (errors_of l) -> exists e, n = Error e /\ In (Error e) l.
Proof.
  unfold errors_of. intros H. apply list_elem_of_In, list_elem_of_omap in H as (n0 & Hn0 & H).
  apply list_elem_of_In in Hn0. destruct n0 as [|e|]; try discriminate.
  injection H as <-. eauto.
Qed.

Lemma inner_values_live (t : nat) (n : notification B) :
  (t <= k)%nat ->
  In n (flat_map (fun '(j, inner) =>
                    List.filter (fun n => negb (is_complete n)) (observe inner (s + j) (t - j)))
                 (inner_subscriptions project source s t)) ->
  is_terminal n = false.
Proof.
  intros Ht H. apply in_flat_map in H as ([j inner] & Hsub & Hn).
  apply filter_In in Hn as [Hn Hnc].
  apply inner_subscriptions_In in Hsub as (a & Hj & Ha & ->).
  destruct n as [b|e|]; [reflexivity| |discriminate].
  exfalso. apply (inner_sound j a (t - j) e); [lia|exact Ha|lia|exact Hn].
Qed.

(** Then a value that an inner observable delivers at tick [k] is delivered
    by the result at tick [k]. *)
Lemma mergeMap_Next_intro (j : nat) (a : A) (b : B) :
  (j <= k)%nat ->
  In (Next a) (observe source s j) ->
  In (Next b) (observe (project a) (s + j) (k - j)) ->
  In (Next b) (mergeMap project source s k).
Proof.
  intros Hj Ha Hb. unfold mergeMap. unfold observe at 1.
  match goal with |- In _ (if existsb is_terminal (produced ?raw s k) then _ else _) =>
    assert (Hquiet : existsb is_terminal (produced raw s k) = false)
  end.
  { destruct (existsb _ _) eqn:E; [|reflexivity]. exfalso.
    apply existsb_exists in E as (n & Hn & Hterm).
    apply produced_In in Hn as (t & Ht & Hn). cbn beta in Hn.
    apply in_app_or in Hn as [Hn|Hn].
    { apply inner_values_live in Hn; [congruence|lia]. }
    apply in_app_or in Hn as [Hn|Hn].
    { apply errors_of_inv in Hn as (e & _ & He). apply (source_sound t e); [lia|exact He]. }
    destruct (existsb is_complete (delivered source s t)) eqn:Ec; cbn [andb] in Hn;
      [|destruct Hn].
    destruct (forallb _ _) eqn:Ef; [|destruct Hn].
    destruct (Nat.le_gt_cases j t) as [Hjt|Hjt].
    - (* the inner subscription of [a] has not completed *)
      rewrite forallb_forall in Ef.
      assert (Hsub : In (j, project a) (inner_subscriptions project source s t))
        by (apply inner_subscriptions_In; eauto).
      specialize (Ef _ Hsub). cbn beta iota in Ef.
      apply existsb_exists in Ef as (m & Hm & Hmc).
      apply delivered_In in Hm as (t' & Ht' & Hm).
      destruct (observe_earlier _ _ _ t' _ Hb ltac:(lia)) as [Heq Hlive].
      rewrite Heq in Hm. pose proof (existsb_false_In _ _ _ Hlive Hm) as Hnt.
      destruct m; discriminate.
    - (* the source has not completed before delivering [a] *)
      apply existsb_exists in Ec as (m & Hm & Hmc).
      apply delivered_In in Hm as (t' & Ht' & Hm).
      destruct (observe_earlier _ _ _ t' _ Ha ltac:(lia)) as [Heq Hlive].
      rewrite Heq in Hm. pose proof (existsb_false_In _ _ _ Hlive Hm) as Hnt.
      destruct m; discriminate. }
  rewrite Hquiet. apply upto_terminal_Next.
  assert (Hin : In (Next b)
            (flat_map (fun '(j, inner) =>
                         List.filter (fun n => negb (is_complete n))
                                     (observe inner (s + j) (k - j)))
                      (inner_subscriptions project source s k))).
  { apply in_flat_map. exists (j, project a). split.
    - apply inner_subscriptions_In. eauto.
    - apply filter_In. split; [exact Hb|reflexivity]. }
  destruct (in_split _ _ Hin) as (l1 & l2 & Heq).
  exists l1, (l2 ++ errors_of (observe source s k)
                 ++ (if existsb is_complete (delivered source s k)
                        && forallb (fun '(j, inner) =>
                             existsb is_complete (delivered inner (s + j) (k - j)))
                             (inner_subscriptions project source s k)
                     then [Complete] else [])).
  split.
  - rewrite Heq, <- app_assoc. reflexivity.
  - destruct (existsb is_terminal l1) eqn:E; [|reflexivity]. exfalso.
    apply existsb_exists in E as (n & Hn & Hterm).
    assert (is_terminal n = false); [|congruence].
    apply (inner_values_live k); [lia|]. rewrite Heq. apply in_or_app. now left.
Qed.

End MergeMapLive.

(** ** The pool-info reader and the price deriver *)

Section PriceDeriver.
Import Rx.
Context {vToken BlockHash : Type}.
Variable instanceId : string.
Variable api : ApiInterfaceRx vToken BlockHash.
Variable tokenSymbol : vToken.
Variable preBlockHash : option BlockHash.

Lemma getPoolInfo_sealed (s k : nat) :
  observe (getPoolInfo instanceId api tokenSymbol preBlockHash) s k
  = getPoolInfo instanceId api tokenSymbol preBlockHash s k.
Proof. apply observe_idem. Qed.

Lemma getConvertPriceInfo_sealed (s k : nat) :
  observe (getConvertPriceInfo instanceId api tokenSymbol preBlockHash) s k
  = getConvertPriceInfo instanceId api tokenSymbol preBlockHash s k.
Proof. apply observe_idem. Qed.

Lemma getConvertPriceInfo_map :
  getConvertPriceInfo instanceId api tokenSymbol preBlockHash
  = map convertPrice (getPoolInfo instanceId api tokenSymbol preBlockHash).
Proof. reflexivity. Qed.

(** While every pool state delivered so far is within the safe range, a
    pool state is answered, at its tick, by what the callback returns. *)
Lemma getConvertPriceInfo_live (s k : nat) (p : convertPool) (v : jsvalue) :
  In (Next p) (getPoolInfo instanceId api tokenSymbol preBlockHash s k) ->
  (forall j q, (j <= k)%nat ->
     In (Next q) (getPoolInfo instanceId api tokenSymbol preBlockHash s j) -> safe_pool q) ->
  convertPrice p = Return v ->
  In (Next v) (getConvertPriceInfo instanceId api tokenSymbol preBlockHash s k).
Proof.
  intros Hp Hsafe Hv. rewrite getConvertPriceInfo_map.
  apply (map_Next_intro convertPrice _ p v); [now rewrite getPoolInfo_sealed|exact Hv|].
  intros j q Hj Hq. rewrite getPoolInfo_sealed in Hq.
  pose proof (Hsafe j q Hj Hq) as Hs. unfold convertPrice.
  rewrite (convertPrice_with_safe _ _ Hs). unfold BN.div.
  destruct (vtoken_pool q =? 0)%Z; cbn; eauto.
Qed.

End PriceDeriver.

(** The quotient is the integer one: 15 tokens for 10 vTokens have the
    price [BN 1], and 5 for 10 the price [BN 0]. *)
Example convertPrice_truncates :
  convertPrice (Scenario.pool_state 15 10) = Return (JBN 1)
  /\ convertPrice (Scenario.pool_state 5 10) = Return (JBN 0).
Proof. vm_compute. split; reflexivity. Qed.

(** C1, as amended.  A pool state with a nonzero [vtoken_pool], delivered
    while every pool state delivered up to that tick, itself included, keeps
    [token_pool] and [vtoken_pool] below [2^53] in magnitude, is answered
    at its tick by the [BN] quotient of [token_pool] by [vtoken_pool],
    truncated toward zero; the trip of both operands through a native
    number changes neither. *)
Theorem getConvertPriceInfo_quotient {vToken BlockHash : Type}
    (instanceId : string) (api : ApiInterfaceRx vToken BlockHash)
    (tokenSymbol : vToken) (preBlockHash : option BlockHash)
    (s k : nat) (p : convertPool) :
  In (Rx.Next p) (getPoolInfo instanceId api tokenSymbol preBlockHash s k) ->
  (forall j q, (j <= k)%nat ->
     In (Rx.Next q) (getPoolInfo instanceId api tokenSymbol preBlockHash s j) -> safe_pool q) ->
  p.(vtoken_pool) <> 0%Z ->
  In (Rx.Next (JBN (Z.quot p.(token_pool) p.(vtoken_pool))))
     (getConvertPriceInfo instanceId api tokenSymbol preBlockHash s k).
Proof.
  intros Hp Hsafe Hnz. apply (getConvertPriceInfo_live _ _ _ _ _ _ p); [exact Hp|exact Hsafe|].
  unfold convertPrice. rewrite (convertPrice_with_safe _ _ (Hsafe k p (le_n k) Hp)).
  unfold BN.div. destruct (Z.eqb_spec (vtoken_pool p) 0); [contradiction|reflexivity].
Qed.

(** The scenario of the specification: 1000 tokens for 100 vTokens. *)
Lemma getConvertPriceInfo_quotient_witness :
  In (Rx.Next (JBN 10))
     (getConvertPriceInfo "polkadot"
        (Scenario.chain (Scenario.pool_state 1000 100) (Scenario.pool_state 1000 100))
        "DOT" None 0 0).
Proof.
  apply (getConvertPriceInfo_quotient "polkadot"
           (Scenario.chain (Scenario.pool_state 1000 100) (Scenario.pool_state 1000 100))
           "DOT" None 0 0 (Scenario.pool_state 1000 100)).
  - vm_compute. left. reflexivity.
  - intros j q Hj Hq. assert (j = 0%nat) as -> by lia.
    vm_compute in Hq. destruct Hq as [Hq|[]]. injection Hq as <-.
    split; vm_compute; reflexivity.
  - vm_compute. discriminate.
Defined.

(** C1 as stated fails: with [token_pool = 2^53] and [vtoken_pool = 1] the
    stream delivers an error and never a price; nothing is truncated. *)
Lemma getConvertPriceInfo_quotient_counterexample :
  let p := Scenario.pool_state (2 ^ 53) 1 in
  let api := Scenario.chain p p in
  In (Rx.Next p) (getPoolInfo "polkadot" api "DOT" None 0 0)
  /\ p.(vtoken_pool) <> 0%Z
  /\ getConvertPriceInfo "polkadot" api "DOT" None 0 0
     = [Rx.Error (AssertionError "Number can only safely store up to 53 bits")]
  /\ forall k v, ~ In (Rx.Next v) (getConvertPriceInfo "polkadot" api "DOT" None 0 k).
Proof.
  intros p api.
  assert (Hp : In (Rx.Next p) (getPoolInfo "polkadot" api "DOT" None 0 0))
    by (vm_compute; left; reflexivity).
  assert (H0 : getConvertPriceInfo "polkadot" api "DOT" None 0 0
               = [Rx.Error (AssertionError "Number can only safely store up to 53 bits")])
    by (vm_compute; reflexivity).
  split; [exact Hp|]. split; [vm_compute; discriminate|]. split; [exact H0|].
  intros [|k] v Hv.
  - rewrite H0 in Hv. destruct Hv as [[=]|[]].
  - rewrite getConvertPriceInfo_map in Hv.
    destruct (map_Next_throw convertPrice (getPoolInfo "polkadot" api "DOT" None) p
                (AssertionError "Number can only safely store up to 53 bits") 0 0) as [_ Hclosed].
    + now rewrite getPoolInfo_sealed.
    + vm_compute. reflexivity.
    + rewrite (Hclosed (S k)) in Hv by lia. destruct Hv.
Qed.

(** C3, as amended.  A pool state whose [vtoken_pool] is zero, delivered
    while every pool state delivered up to that tick, itself included, is
    within the safe range, is answered at its tick by the number [0]; the
    callback returns it whatever the division would do, so no division
    takes place. *)
Theorem getConvertPriceInfo_zero {vToken BlockHash : Type}
    (instanceId : string) (api : ApiInterfaceRx vToken BlockHash)
    (tokenSymbol : vToken) (preBlockHash : option BlockHash)
    (s k : nat) (p : convertPool) :
  In (Rx.Next p) (getPoolInfo instanceId api tokenSymbol preBlockHash s k) ->
  (forall j q, (j <= k)%nat ->
     In (Rx.Next q) (getPoolInfo instanceId api tokenSymbol preBlockHash s j) -> safe_pool q) ->
  p.(vtoken_pool) = 0%Z ->
  In (Rx.Next (JNumber JS.zero))
     (getConvertPriceInfo instanceId api tokenSymbol preBlockHash s k)
  /\ forall bn_div, convertPrice_with bn_div p = Return (JNumber JS.zero).
Proof.
  intros Hp Hsafe Hz.
  assert (Hcb : forall bn_div, convertPrice_with bn_div p = Return (JNumber JS.zero)).
  { intros bn_div. rewrite (convertPrice_with_safe _ _ (Hsafe k p (le_n k) Hp)), Hz.
    reflexivity. }
  split; [|exact Hcb].
  apply (getConvertPriceInfo_live _ _ _ _ _ _ p); [exact Hp|exact Hsafe|apply Hcb].
Qed.

(** The scenario of the specification: 1000 tokens for no vToken. *)
Lemma getConvertPriceInfo_zero_witness :
  In (Rx.Next (JNumber JS.zero))
     (getConvertPriceInfo "polkadot"
        (Scenario.chain (Scenario.pool_state 1000 0) (Scenario.pool_state 1000 0))
        "DOT" None 0 0)
  /\ forall bn_div,
       convertPrice_with bn_div (Scenario.pool_state 1000 0) = Return (JNumber JS.zero).
Proof.
  apply (getConvertPriceInfo_zero "polkadot"
           (Scenario.chain (Scenario.pool_state 1000 0) (Scenario.pool_state 1000 0))
           "DOT" None 0 0 (Scenario.pool_state 1000 0)).
  - vm_compute. left. reflexivity.
  - intros j q Hj Hq. assert (j = 0%nat) as -> by lia.
    vm_compute in Hq. destruct Hq as [Hq|[]]. injection Hq as <-.
    split; vm_compute; reflexivity.
  - reflexivity.
Defined.

(** C3 as stated fails: with [vtoken_pool = 0] and [token_pool = 2^53] the
    stream delivers an error, not [0]. *)
Lemma getConvertPriceInfo_zero_counterexample :
  let p := Scenario.pool_state (2 ^ 53) 0 in
  let api := Scenario.chain p p in
  In (Rx.Next p) (getPoolInfo "polkadot" api "DOT" None 0 0)
  /\ p.(vtoken_pool) = 0%Z
  /\ getConvertPriceInfo "polkadot" api "DOT" None 0 0
     = [Rx.Error (AssertionError "Number can only safely store up to 53 bits")]
  /\ forall k v, ~ In (Rx.Next v) (getConvertPriceInfo "polkadot" api "DOT" None 0 k).
Proof.
  intros p api.
  assert (Hp : In (Rx.Next p) (getPoolInfo "polkadot" api "DOT" None 0 0))
    by (vm_compute; left; reflexivity).
  assert (H0 : getConvertPriceInfo "polkadot" api "DOT" None 0 0
               = [Rx.Error (AssertionError "Number can only safely store up to 53 bits")])
    by (vm_compute; reflexivity).
  split; [exact Hp|]. split; [reflexivity|]. split; [exact H0|].
  intros [|k] v Hv.
  - rewrite H0 in Hv. destruct Hv as [[=]|[]].
  - rewrite getConvertPriceInfo_map in Hv.
    destruct (map_Next_throw convertPrice (getPoolInfo "polkadot" api "DOT" None) p
                (AssertionError "Number can only safely store up to 53 bits") 0 0) as [_ Hclosed].
    + now rewrite getPoolInfo_sealed.
    + vm_compute. reflexivity.
    + rewrite (Hclosed (S k)) in Hv by lia. destruct Hv.
Qed.

(** C10.  A pool state whose [token_pool] or [vtoken_pool] is [2^53] or more
    in magnitude makes the callback throw the assertion of [toNumber]: the
    stream has delivered an error by that tick and delivers nothing
    afterwards.  Nothing is truncated: every price that the stream emits is
    what the callback returns on a pool state within the safe range. *)
Theorem getConvertPriceInfo_unsafe_errors {vToken BlockHash : Type}
    (instanceId : string) (api : ApiInterfaceRx vToken BlockHash)
    (tokenSymbol : vToken) (preBlockHash : option BlockHash)
    (s k : nat) (p : convertPool) :
  In (Rx.Next p) (getPoolInfo instanceId api tokenSymbol preBlockHash s k) ->
  (2 ^ 53 <= Z.abs p.(token_pool) \/ 2 ^ 53 <= Z.abs p.(vtoken_pool))%Z ->
  convertPrice p = Throw (AssertionError "Number can only safely store up to 53 bits")
  /\ (exists j e, (j <= k)%nat
        /\ In (Rx.Error e) (getConvertPriceInfo instanceId api tokenSymbol preBlockHash s j))
  /\ (forall k', (k < k')%nat ->
        getConvertPriceInfo instanceId api tokenSymbol preBlockHash s k' = [])
  /\ (forall j v,
        In (Rx.Next v) (getConvertPriceInfo instanceId api tokenSymbol preBlockHash s j) ->
        exists q, In (Rx.Next q) (getPoolInfo instanceId api tokenSymbol preBlockHash s j)
                  /\ safe_pool q /\ convertPrice q = Return v).
Proof.
  intros Hp Hu.
  assert (Hthrow : convertPrice p
                   = Throw (AssertionError "Number can only safely store up to 53 bits"))
    by (apply convertPrice_with_unsafe; exact Hu).
  split; [exact Hthrow|]. rewrite getConvertPriceInfo_map.
  destruct (map_Next_throw convertPrice
              (getPoolInfo instanceId api tokenSymbol preBlockHash) p
              (AssertionError "Number can only safely store up to 53 bits") s k)
    as [Herr Hclosed]; [now rewrite getPoolInfo_sealed|exact Hthrow|].
  split; [exact Herr|]. split; [exact Hclosed|].
  intros j v Hv. apply map_Next_inv in Hv as (q & Hq & Hret).
  rewrite getPoolInfo_sealed in Hq. exists q.
  split; [exact Hq|]. split; [|exact Hret]. exact (convertPrice_returns_safe _ _ _ Hret).
Qed.

Lemma getConvertPriceInfo_unsafe_errors_witness :
  let p := Scenario.pool_state 1000 (2 ^ 60) in
  let api := Scenario.chain p p in
  convertPrice p = Throw (AssertionError "Number can only safely store up to 53 bits")
  /\ (exists j e, (j <= 0)%nat
        /\ In (Rx.Error e) (getConvertPriceInfo "polkadot" api "DOT" None 0 j))
  /\ (forall k', (0 < k')%nat -> getConvertPriceInfo "polkadot" api "DOT" None 0 k' = [])
  /\ (forall j v,
        In (Rx.Next v) (getConvertPriceInfo "polkadot" api "DOT" None 0 j) ->
        exists q, In (Rx.Next q) (getPoolInfo "polkadot" api "DOT" None 0 j)
                  /\ safe_pool q /\ convertPrice q = Return v).
Proof.
  intros p api.
  apply (getConvertPriceInfo_unsafe_errors "polkadot" api "DOT" None 0 0 p).
  - vm_compute. left. reflexivity.
  - right. vm_compute. discriminate.
Defined.

(** ** The annualized-rate deriver *)

Lemma map_sealed {A B : Type} (project : A -> completion B) (source : Rx.Observable A)
    (s k : nat) :
  Rx.observe (Rx.map project source) s k = Rx.map project source s k.
Proof. apply observe_idem. Qed.

Lemma combineLatest_sealed {A : Type} (observables : list (Rx.Observable A)) (s k : nat) :
  Rx.observe (Rx.combineLatest observables) s k = Rx.combineLatest observables s k.
Proof. destruct observables; apply observe_idem. Qed.

Lemma mergeMap_sealed {A B : Type} (project : A -> Rx.Observable B)
    (source : Rx.Observable A) (s k : nat) :
  Rx.observe (Rx.mergeMap project source) s k = Rx.mergeMap project source s k.
Proof. apply observe_idem. Qed.

(** The guard [historicalPrice !== 0] lets through every price whose
    numeric value is not zero. *)
Lemma strict_neq_zero_numeric (v : jsvalue) :
  SFeqb (ToNumber v) JS.zero = false -> strict_neq_zero v = true.
Proof. destruct v; cbn; [intros ->|..]; reflexivity. Qed.

(** The guard stops the number zero, of either sign, and then the callback
    returns [0] whatever the division would do. *)
Lemma annualizedRate_number_zero (num_div : number -> number -> number)
    (currentPrice : jsvalue) (sign : bool) :
  annualizedRate_with num_div [currentPrice; JNumber (S754_zero sign)] = Return JS.zero.
Proof. destruct sign; reflexivity. Qed.

(** C4.  For every combined pair whose historical price is not zero as a
    number, the rate delivered at that tick is
    [(currentPrice - historicalPrice) / historicalPrice / 7 * 365], computed
    on numbers. *)
Theorem getAnnualizedRate_formula {vToken BlockHash : Type}
    (getDesignatedBlockHash :
       string -> ApiInterfaceRx vToken BlockHash -> unit -> Rx.Observable BlockHash)
    (instanceId : string) (api : ApiInterfaceRx vToken BlockHash) (tokenSymbol : vToken)
    (s k : nat) (prices : list jsvalue) (currentPrice historicalPrice : jsvalue) :
  In (Rx.Next prices) (pricePairs getDesignatedBlockHash instanceId api tokenSymbol s k) ->
  prices !! 0%nat = Some currentPrice ->
  prices !! 1%nat = Some historicalPrice ->
  SFeqb (ToNumber historicalPrice) JS.zero = false ->
  In (Rx.Next
        (JS.mul
           (JS.div
              (JS.div (JS.sub (ToNumber currentPrice) (ToNumber historicalPrice))
                      (ToNumber historicalPrice))
              (JS.ofZ 7))
           (JS.ofZ 365)))
     (getAnnualizedRate getDesignatedBlockHash instanceId api tokenSymbol s k).
Proof.
  intros Hin Hc Hh Hnz.
  change (getAnnualizedRate getDesignatedBlockHash instanceId api tokenSymbol)
    with (Rx.map annualizedRate (pricePairs getDesignatedBlockHash instanceId api tokenSymbol)).
  apply (map_Next_intro annualizedRate _ prices).
  - unfold pricePairs. now rewrite combineLatest_sealed.
  - unfold annualizedRate, annualizedRate_with. rewrite Hc, Hh. cbn [from_option id].
    now rewrite (strict_neq_zero_numeric _ Hnz).
  - intros j q _ _. unfold annualizedRate, annualizedRate_with.
    destruct (strict_neq_zero _); eauto.
Qed.

(** The scenario of the specification: a price of 12 now, 10 a week ago. *)
Lemma getAnnualizedRate_formula_witness :
  In (Rx.Next (S754_finite false 5870763799965111 (-49)))
     (getAnnualizedRate Scenario.resolver "polkadot"
        (Scenario.chain (Scenario.pool_state 1200 100) (Scenario.pool_state 1000 100))
        "DOT" 0 0).
Proof.
  apply (getAnnualizedRate_formula Scenario.resolver "polkadot"
           (Scenario.chain (Scenario.pool_state 1200 100) (Scenario.pool_state 1000 100))
           "DOT" 0 0 [JBN 12; JBN 10] (JBN 12) (JBN 10)).
  - vm_compute. left. reflexivity.
  - reflexivity.
  - reflexivity.
  - vm_compute. reflexivity.
Defined.

(** C2 on the code.  A pool with fewer tokens than vTokens has the price
    [BN 0]: an object, which the guard [historicalPrice !== 0] lets through.
    With 5 tokens for 10 vTokens a week ago and 20 for 10 now, the rate
    delivered is [2 / 0 / 7 * 365], infinity; with 5 for 10 now as well it
    is [0 / 0 / 7 * 365], not a number. *)
Theorem getAnnualizedRate_BN_zero_divides :
  let past := Scenario.pool_state 5 10 in
  let now := Scenario.pool_state 20 10 in
  getConvertPriceInfo "polkadot" (Scenario.chain now past) "DOT" (Some "0xweekago") 0 0
  = [Rx.Next (JBN 0)]
  /\ pricePairs Scenario.resolver "polkadot" (Scenario.chain now past) "DOT" 0 0
     = [Rx.Next [JBN 2; JBN 0]]
  /\ getAnnualizedRate Scenario.resolver "polkadot" (Scenario.chain now past) "DOT" 0 0
     = [Rx.Next (S754_infinity false)]
  /\ getAnnualizedRate Scenario.resolver "polkadot" (Scenario.chain past past) "DOT" 0 0
     = [Rx.Next S754_nan].
Proof. vm_compute. repeat split. Qed.

(** ** The batch variants *)

Section Batch.
Import Rx.
Context {vToken BlockHash : Type}.
Variable bifrostVtokenList : list vToken.
Variable getDesignatedBlockHash :
  string -> ApiInterfaceRx vToken BlockHash -> unit -> Observable BlockHash.
Variable instanceId : string.
Variable api : ApiInterfaceRx vToken BlockHash.

(** Fanning a sealed per-token stream out over a token list: every emitted
    list follows the token list, element by element. *)
Lemma fan_out_Next_inv {T : Type} (query : vToken -> Observable T)
    (vTokenList : list vToken) (s k : nat) (l : list T) :
  (forall vtk s j, observe (query vtk) s j = query vtk s j) ->
  In (Next l) (combineLatest (List.map query vTokenList) s k) ->
  length l = length vTokenList
  /\ forall i x, l !! i = Some x ->
       exists vtk, vTokenList !! i = Some vtk
                   /\ (In (Next x) (query vtk s k) \/ latest (query vtk) s k = Some x).
Proof.
  intros Hsealed H. apply combineLatest_Next_latest in H as [Hlen Hel].
  rewrite length_map in Hlen. split; [exact Hlen|].
  intros i x Hi. destruct (Hel i x Hi) as (o & Ho & Hx).
  rewrite list_lookup_fmap in Ho.
  destruct (vTokenList !! i) as [vtk|] eqn:E; [|discriminate].
  injection Ho as <-. exists vtk. rewrite Hsealed in Hx. auto.
Qed.

Lemma getAllVtokenConvertInfo_fan_out (vTokenArray : option (list vToken)) :
  getAllVtokenConvertInfo bifrostVtokenList instanceId api vTokenArray
  = combineLatest (List.map (fun vtk => getPoolInfo instanceId api vtk None)
                            (default bifrostVtokenList vTokenArray)).
Proof. now destruct vTokenArray. Qed.

Lemma getAllConvertPriceInfo_fan_out (vTokenArray : option (list vToken)) :
  getAllConvertPriceInfo bifrostVtokenList instanceId api vTokenArray
  = combineLatest (List.map (fun vtk => getConvertPriceInfo instanceId api vtk None)
                            (default bifrostVtokenList vTokenArray)).
Proof. now destruct vTokenArray. Qed.

Lemma getAllAnnualizedRate_fan_out (vTokenArray : option (list vToken)) :
  getAllAnnualizedRate bifrostVtokenList getDesignatedBlockHash instanceId api vTokenArray
  = combineLatest (List.map (fun vtk => getAnnualizedRate getDesignatedBlockHash instanceId api vtk)
                            (default bifrostVtokenList vTokenArray)).
Proof. now destruct vTokenArray. Qed.

End Batch.

(** C5.  Whether the token list is given or defaulted, every list emitted by
    [getAllVtokenConvertInfo], [getAllConvertPriceInfo] and
    [getAllAnnualizedRate] has the length of the token list, and its [i]-th
    element is a value that the per-token stream of the [i]-th token has
    delivered by then. *)
Theorem batch_lists_follow_tokens {vToken BlockHash : Type}
    (bifrostVtokenList : list vToken)
    (getDesignatedBlockHash :
       string -> ApiInterfaceRx vToken BlockHash -> unit -> Rx.Observable BlockHash)
    (instanceId : string) (api : ApiInterfaceRx vToken BlockHash)
    (vTokenArray : option (list vToken)) (s k : nat) :
  let vTokenList := default bifrostVtokenList vTokenArray in
  (forall l,
     In (Rx.Next l) (getAllVtokenConvertInfo bifrostVtokenList instanceId api vTokenArray s k) ->
     length l = length vTokenList
     /\ forall i x, l !! i = Some x ->
          exists vtk, vTokenList !! i = Some vtk
            /\ (In (Rx.Next x) (getPoolInfo instanceId api vtk None s k)
                \/ Rx.latest (getPoolInfo instanceId api vtk None) s k = Some x))
  /\ (forall l,
     In (Rx.Next l) (getAllConvertPriceInfo bifrostVtokenList instanceId api vTokenArray s k) ->
     length l = length vTokenList
     /\ forall i x, l !! i = Some x ->
          exists vtk, vTokenList !! i = Some vtk
            /\ (In (Rx.Next x) (getConvertPriceInfo instanceId api vtk None s k)
                \/ Rx.latest (getConvertPriceInfo instanceId api vtk None) s k = Some x))
  /\ (forall l,
     In (Rx.Next l)
        (getAllAnnualizedRate bifrostVtokenList getDesignatedBlockHash instanceId api
           vTokenArray s k) ->
     length l = length vTokenList
     /\ forall i x, l !! i = Some x ->
          exists vtk, vTokenList !! i = Some vtk
            /\ (In (Rx.Next x)
                   (getAnnualizedRate getDesignatedBlockHash instanceId api vtk s k)
                \/ Rx.latest (getAnnualizedRate getDesignatedBlockHash instanceId api vtk) s k
                   = Some x)).
Proof.
  intros vTokenList. split; [|split]; intros l Hl.
  - rewrite getAllVtokenConvertInfo_fan_out in Hl.
    apply (fan_out_Next_inv (fun vtk => getPoolInfo instanceId api vtk None)) in Hl;
      [exact Hl|]. intros; apply map_sealed.
  - rewrite getAllConvertPriceInfo_fan_out in Hl.
    apply (fan_out_Next_inv (fun vtk => getConvertPriceInfo instanceId api vtk None)) in Hl;
      [exact Hl|]. intros; apply map_sealed.
  - rewrite getAllAnnualizedRate_fan_out in Hl.
    apply (fan_out_Next_inv
             (fun vtk => getAnnualizedRate getDesignatedBlockHash instanceId api vtk)) in Hl;
      [exact Hl|]. intros; apply map_sealed.
Qed.

(** Two tokens, asked for in the order KSM, DOT: the pools and the prices
    come back in that order. *)
Lemma batch_lists_follow_tokens_witness :
  let api := Scenario.token_chain Scenario.two_pools in
  (length [Scenario.pool_state 30 7; Scenario.pool_state 1000 100] = 2%nat
   /\ forall i x, [Scenario.pool_state 30 7; Scenario.pool_state 1000 100] !! i = Some x ->
        exists vtk, ["KSM"; "DOT"] !! i = Some vtk
          /\ (In (Rx.Next x) (getPoolInfo "polkadot" api vtk None 0 0)
              \/ Rx.latest (getPoolInfo "polkadot" api vtk None) 0 0 = Some x))
  /\ (length [JBN 4; JBN 10] = 2%nat
   /\ forall i x, [JBN 4; JBN 10] !! i = Some x ->
        exists vtk, ["KSM"; "DOT"] !! i = Some vtk
          /\ (In (Rx.Next x) (getConvertPriceInfo "polkadot" api vtk None 0 0)
              \/ Rx.latest (getConvertPriceInfo "polkadot" api vtk None) 0 0 = Some x)).
Proof.
  intros api.
  pose proof (batch_lists_follow_tokens ["DOT"; "KSM"] Scenario.resolver "polkadot" api
                (Some ["KSM"; "DOT"]) 0 0) as (Hpools & Hprices & _).
  split.
  - apply Hpools. vm_compute. left. reflexivity.
  - apply Hprices. vm_compute. left. reflexivity.
Defined.

(** C7.  Each batch function called without a token list is the function
    called with [bifrostVtokenList]. *)
Theorem batch_default_token_list {vToken BlockHash : Type}
    (bifrostVtokenList : list vToken)
    (getDesignatedBlockHash :
       string -> ApiInterfaceRx vToken BlockHash -> unit -> Rx.Observable BlockHash)
    (instanceId : string) (api : ApiInterfaceRx vToken BlockHash) :
  getAllVtokenConvertInfo bifrostVtokenList instanceId api None
  = getAllVtokenConvertInfo bifrostVtokenList instanceId api (Some bifrostVtokenList)
  /\ getAllConvertPriceInfo bifrostVtokenList instanceId api None
     = getAllConvertPriceInfo bifrostVtokenList instanceId api (Some bifrostVtokenList)
  /\ getAllAnnualizedRate bifrostVtokenList getDesignatedBlockHash instanceId api None
     = getAllAnnualizedRate bifrostVtokenList getDesignatedBlockHash instanceId api
         (Some bifrostVtokenList).
Proof. repeat split. Qed.

(** C9.  Given the empty token list, each batch function completes at the
    tick of the subscription and delivers nothing else: no list is ever
    emitted, the empty one included. *)
Theorem batch_empty_list_completes {vToken BlockHash : Type}
    (bifrostVtokenList : list vToken)
    (getDesignatedBlockHash :
       string -> ApiInterfaceRx vToken BlockHash -> unit -> Rx.Observable BlockHash)
    (instanceId : string) (api : ApiInterfaceRx vToken BlockHash) (s k : nat) :
  getAllVtokenConvertInfo bifrostVtokenList instanceId api (Some []) s k
  = match k with O => [Rx.Complete] | S _ => [] end
  /\ getAllConvertPriceInfo bifrostVtokenList instanceId api (Some []) s k
     = match k with O => [Rx.Complete] | S _ => [] end
  /\ getAllAnnualizedRate bifrostVtokenList getDesignatedBlockHash instanceId api (Some []) s k
     = match k with O => [Rx.Complete] | S _ => [] end.
Proof.
  rewrite getAllVtokenConvertInfo_fan_out, getAllConvertPriceInfo_fan_out,
    getAllAnnualizedRate_fan_out.
  cbn [default from_option id List.map]. repeat split; apply combineLatest_nil.
Qed.

(** ** Prices by hash list *)

Section BatchByHash.
Import Rx.
Context {vToken BlockHash : Type}.
Variable instanceId : string.
Variable api : ApiInterfaceRx vToken BlockHash.
Variable tokenSymbol : vToken.

Lemma pricesAt_Next_inv (blockHashList : list BlockHash) (s k : nat) (l : list jsvalue) :
  In (Next l) (pricesAt instanceId api tokenSymbol blockHashList s k) ->
  length l = length blockHashList
  /\ forall i x, l !! i = Some x ->
       exists blockHash, blockHashList !! i = Some blockHash
         /\ (In (Next x) (getConvertPriceInfo instanceId api tokenSymbol (Some blockHash) s k)
             \/ latest (getConvertPriceInfo instanceId api tokenSymbol (Some blockHash)) s k
                = Some x).
Proof.
  apply (fan_out_Next_inv
           (fun blockHash => getConvertPriceInfo instanceId api tokenSymbol (Some blockHash))).
  intros; apply map_sealed.
Qed.

Lemma pricesAt_Error_inv (blockHashList : list BlockHash) (s k : nat) (e : exn) :
  In (Error e) (pricesAt instanceId api tokenSymbol blockHashList s k) ->
  exists blockHash, In blockHash blockHashList
    /\ In (Error e) (getConvertPriceInfo instanceId api tokenSymbol (Some blockHash) s k).
Proof.
  intros H. apply combineLatest_Error_inv in H as (i & o & Ho & He).
  rewrite list_lookup_fmap in Ho.
  destruct (blockHashList !! i) as [blockHash|] eqn:E; [|discriminate].
  injection Ho as <-. rewrite getConvertPriceInfo_sealed in He. exists blockHash.
  split; [|exact He]. apply list_elem_of_In. eapply list_elem_of_lookup_2. exact E.
Qed.

(** Once every hash of a list has its price, no price query having failed,
    a list is emitted at each tick at which one of the prices arrives. *)
Lemma pricesAt_emits (blockHashList : list BlockHash) (s k : nat) :
  (forall blockHash, In blockHash blockHashList ->
     exists j x, (j <= k)%nat
       /\ In (Next x) (getConvertPriceInfo instanceId api tokenSymbol (Some blockHash) s j)) ->
  (exists blockHash x, In blockHash blockHashList
       /\ In (Next x) (getConvertPriceInfo instanceId api tokenSymbol (Some blockHash) s k)) ->
  (forall blockHash j e, In blockHash blockHashList -> (j <= k)%nat ->
       ~ In (Error e) (getConvertPriceInfo instanceId api tokenSymbol (Some blockHash) s j)) ->
  exists l, In (Next l) (pricesAt instanceId api tokenSymbol blockHashList s k).
Proof.
  intros Hall (h1 & x1 & Hh1 & Hx1) Hsound. apply combineLatest_emits.
  - intros i o Ho. rewrite list_lookup_fmap in Ho.
    destruct (blockHashList !! i) as [blockHash|] eqn:E; [|discriminate].
    injection Ho as <-. destruct (Hall blockHash) as (j & x & Hj & Hx).
    + apply list_elem_of_In. eapply list_elem_of_lookup_2. exact E.
    + exists j, x. split; [exact Hj|]. now rewrite getConvertPriceInfo_sealed.
  - apply list_elem_of_In, list_elem_of_lookup_1 in Hh1 as [i Hi].
    exists i, (getConvertPriceInfo instanceId api tokenSymbol (Some h1)), x1.
    split; [now rewrite list_lookup_fmap, Hi|now rewrite getConvertPriceInfo_sealed].
  - intros i o j e Ho Hj He. rewrite list_lookup_fmap in Ho.
    destruct (blockHashList !! i) as [blockHash|] eqn:E; [|discriminate].
    injection Ho as <-. rewrite getConvertPriceInfo_sealed in He.
    apply (Hsound blockHash j e); [|exact Hj|exact He].
    apply list_elem_of_In. eapply list_elem_of_lookup_2. exact E.
Qed.

End BatchByHash.

(** C8, as amended.  Every list that [getBatchConvertPrice] emits answers
    one hash list of the input stream: it has the length of that hash list
    and its [i]-th element is the price of the token at the [i]-th hash: the
    one delivered at that tick or, failing that, the latest delivered
    before.  And a hash list that is not empty is answered: as long as neither
    the input stream nor a price query has failed, once every hash of the
    list has its price a list for it is emitted at each tick at which one of
    these prices arrives. *)
Theorem getBatchConvertPrice_lists {vToken BlockHash : Type}
    (instanceId : string) (api : ApiInterfaceRx vToken BlockHash)
    (tokenSymbol : vToken) (blockHashArray : Rx.Observable (list BlockHash))
    (s k : nat) :
  let price := fun blockHash => getConvertPriceInfo instanceId api tokenSymbol (Some blockHash) in
  let answers := fun (j : nat) (blockHashList : list BlockHash) (l : list jsvalue) =>
    length l = length blockHashList
    /\ forall i x, l !! i = Some x ->
         exists blockHash, blockHashList !! i = Some blockHash
           /\ (In (Rx.Next x) (price blockHash (s + j)%nat (k - j)%nat)
               \/ Rx.latest (price blockHash) (s + j)%nat (k - j)%nat = Some x) in
  (forall l,
     In (Rx.Next l) (getBatchConvertPrice instanceId api tokenSymbol blockHashArray s k) ->
     exists j blockHashList,
       (j <= k)%nat /\ In (Rx.Next blockHashList) (Rx.observe blockHashArray s j)
       /\ answers j blockHashList l)
  /\ (forall j blockHashList,
        (j <= k)%nat -> In (Rx.Next blockHashList) (Rx.observe blockHashArray s j) ->
        blockHashList <> [] ->
        (forall j' e, (j' <= k)%nat -> ~ In (Rx.Error e) (Rx.observe blockHashArray s j')) ->
        (forall j' blockHashList' blockHash t e,
           (j' <= k)%nat -> In (Rx.Next blockHashList') (Rx.observe blockHashArray s j') ->
           In blockHash blockHashList' -> (t <= k - j')%nat ->
           ~ In (Rx.Error e) (price blockHash (s + j')%nat t)) ->
        (forall blockHash, In blockHash blockHashList ->
           exists t x, (t <= k - j)%nat /\ In (Rx.Next x) (price blockHash (s + j)%nat t)) ->
        (exists blockHash x, In blockHash blockHashList
           /\ In (Rx.Next x) (price blockHash (s + j)%nat (k - j)%nat)) ->
        exists l,
          In (Rx.Next l) (getBatchConvertPrice instanceId api tokenSymbol blockHashArray s k)
          /\ answers j blockHashList l).
Proof.
  intros price answers. split.
  - intros l Hl.
    apply (mergeMap_Next_inv (pricesAt instanceId api tokenSymbol) blockHashArray) in Hl
      as (j & blockHashList & Hj & HL & Hl).
    exists j, blockHashList. split; [exact Hj|]. split; [exact HL|].
    unfold pricesAt in Hl. rewrite combineLatest_sealed in Hl.
    now apply pricesAt_Next_inv in Hl.
  - intros j blockHashList Hj HL Hne Hsrc Hprices Hall Hone.
    destruct (pricesAt_emits instanceId api tokenSymbol blockHashList (s + j) (k - j))
      as [l Hl]; [exact Hall|exact Hone| |].
    { intros blockHash t e Hin Ht. apply (Hprices j blockHashList blockHash t e); auto. }
    exists l. split; [|now apply pricesAt_Next_inv in Hl].
    apply (mergeMap_Next_intro (pricesAt instanceId api tokenSymbol) blockHashArray s k)
      with (j := j) (a := blockHashList); [exact Hsrc| |exact Hj|exact HL|].
    + intros j' blockHashList' t e Hj' HL' Ht He.
      unfold pricesAt in He. rewrite combineLatest_sealed in He.
      apply pricesAt_Error_inv in He as (blockHash & Hin & He).
      apply (Hprices j' blockHashList' blockHash t e); auto.
    + unfold pricesAt. now rewrite combineLatest_sealed.
Qed.

(** Two hashes, then one: a list of two prices, then a list of one. *)
Lemma getBatchConvertPrice_lists_witness :
  let api := Scenario.chain (Scenario.pool_state 1200 100) (Scenario.pool_state 1000 100) in
  exists l,
    In (Rx.Next l) (getBatchConvertPrice "polkadot" api "DOT" Scenario.hash_lists 0 1)
    /\ length l = length ["0xh3"]
    /\ forall i x, l !! i = Some x ->
         exists blockHash, ["0xh3"] !! i = Some blockHash
           /\ (In (Rx.Next x)
                  (getConvertPriceInfo "polkadot" api "DOT" (Some blockHash) (0 + 1) (1 - 1))
               \/ Rx.latest (getConvertPriceInfo "polkadot" api "DOT" (Some blockHash))
                            (0 + 1) (1 - 1) = Some x).
Proof.
  intros api.
  apply (proj2 (getBatchConvertPrice_lists "polkadot" api "DOT" Scenario.hash_lists 0 1)
           1%nat ["0xh3"]).
  - lia.
  - vm_compute. left. reflexivity.
  - discriminate.
  - intros j' e Hj' He. assert (j' = 0 \/ j' = 1)%nat as [-> | ->] by lia;
      vm_compute in He; destruct He as [[=]|[]].
  - intros j' L' blockHash t e Hj' HL' Hin Ht He.
    assert (j' = 0 \/ j' = 1)%nat as [-> | ->] by lia.
    + assert (t = 0 \/ t = 1)%nat as [-> | ->] by lia;
        vm_compute in He; first [destruct He as [[=]|[]]|destruct He].
    + assert (t = 0)%nat as -> by lia. vm_compute in He. destruct He as [[=]|[]].
  - intros blockHash [<-|[]]. exists 0%nat, (JBN 10). split; [lia|]. vm_compute. left. reflexivity.
  - exists "0xh3", (JBN 10). split; [now left|]. vm_compute. left. reflexivity.
Defined.

(** C8 as stated fails: the input stream emits the empty hash list, and no
    list of prices, the empty one included, is ever emitted for it. *)
Lemma getBatchConvertPrice_lists_counterexample :
  let api := Scenario.chain (Scenario.pool_state 1200 100) (Scenario.pool_state 1000 100) in
  In (Rx.Next []) (Rx.observe Scenario.no_hashes 0 0)
  /\ forall k l,
       ~ In (Rx.Next l) (getBatchConvertPrice "polkadot" api "DOT" Scenario.no_hashes 0 k).
Proof.
  intros api. split; [vm_compute; left; reflexivity|].
  intros k l Hl.
  apply (mergeMap_Next_inv (pricesAt "polkadot" api "DOT") Scenario.no_hashes) in Hl
    as (j & blockHashList & _ & HL & Hl).
  apply observe_In in HL. destruct j as [|j]; [|destruct HL].
  destruct HL as [[= <-]|[]].
  unfold pricesAt in Hl. rewrite combineLatest_sealed in Hl. cbn [List.map] in Hl.
  rewrite combineLatest_nil in Hl. destruct (k - 0)%nat; [destruct Hl as [[=]|[]]|destruct Hl].
Qed.

(** The scenario of the specification: the hash lists [[h1; h2]], [[h3]]
    and then the empty list are answered by a list of two prices, a list of
    one price, and nothing. *)
Example getBatchConvertPrice_scenario :
  let api := Scenario.chain (Scenario.pool_state 1200 100) (Scenario.pool_state 1000 100) in
  List.map (getBatchConvertPrice "polkadot" api "DOT" Scenario.hash_lists 0) [0; 1; 2; 3]%nat
  = [[Rx.Next [JBN 10; JBN 10]]; [Rx.Next [JBN 10]]; []; []].
Proof. vm_compute. reflexivity. Qed.

(** ** The memoization wrapper *)

Section MemoFacts.
Context {Args T : Type} `{Countable Args}.
Variable instanceId : string.
Variable fn : Args -> Rx.Observable T.

Implicit Type tb : Memo.table (Args := Args) (T := T).

Lemma construct_ok : Memo.table_ok instanceId fn Memo.construct.
Proof.
  split.
  - intros args h Hh. cbn in Hh. now rewrite lookup_empty in Hh.
  - intros args. cbn. now rewrite lookup_empty.
Qed.

Lemma invocations_snoc tb (entries' : gmap (string * Args) nat) (args args' : Args) :
  Memo.invocations {| Memo.entries := entries';
                      Memo.streams := Memo.streams tb ++ [(args, fn args)] |} args'
  = (Memo.invocations tb args' + if bool_decide (args = args') then 1 else 0)%nat.
Proof.
  unfold Memo.invocations. cbn [Memo.streams]. rewrite List.filter_app, length_app.
  cbn [List.filter fst]. now destruct (bool_decide (args = args')).
Qed.

Lemma call_ok tb (args : Args) :
  Memo.table_ok instanceId fn tb ->
  Memo.table_ok instanceId fn (Memo.call instanceId fn tb args).2
  /\ Memo.entries (Memo.call instanceId fn tb args).2 !! (instanceId, args)
     = Some (Memo.call instanceId fn tb args).1
  /\ (forall key h, Memo.entries tb !! key = Some h ->
                    Memo.entries (Memo.call instanceId fn tb args).2 !! key = Some h).
Proof.
  intros [Hent Hinv]. unfold Memo.call.
  destruct (Memo.entries tb !! (instanceId, args)) as [h|] eqn:E; cbn [fst snd].
  - repeat split; [exact Hent|exact Hinv|exact E|auto].
  - repeat split.
    + intros args' h Hh. cbn in Hh |- *.
      destruct (decide (args = args')) as [<-|Hne].
      * rewrite lookup_insert_eq in Hh. injection Hh as <-.
        now rewrite lookup_app_r, Nat.sub_diag by lia.
      * rewrite lookup_insert_ne in Hh by congruence.
        rewrite lookup_app_l; [now apply Hent|].
        apply lookup_lt_is_Some. rewrite (Hent _ _ Hh). eauto.
    + intros args'. rewrite invocations_snoc, Hinv. cbn [Memo.entries].
      destruct (decide (args = args')) as [<-|Hne].
      * rewrite lookup_insert_eq, E, bool_decide_eq_true_2 by reflexivity. reflexivity.
      * rewrite lookup_insert_ne, bool_decide_eq_false_2 by congruence.
        destruct (Memo.entries tb !! (instanceId, args')); lia.
    + cbn. apply lookup_insert_eq.
    + intros key h Hh. cbn. rewrite lookup_insert_ne; [exact Hh|]. congruence.
Qed.

Lemma calls_ok (l : list Args) tb :
  Memo.table_ok instanceId fn tb ->
  Memo.table_ok instanceId fn (Memo.calls instanceId fn tb l).2
  /\ (forall key h, Memo.entries tb !! key = Some h ->
                    Memo.entries (Memo.calls instanceId fn tb l).2 !! key = Some h)
  /\ (forall i args h, l !! i = Some args ->
        (Memo.calls instanceId fn tb l).1 !! i = Some h ->
        Memo.entries (Memo.calls instanceId fn tb l).2 !! (instanceId, args) = Some h).
Proof.
  revert tb. induction l as [|args l IH]; intros tb Hok.
  - cbn. repeat split; [apply Hok..|auto|]. intros i ? ? Hi. now rewrite lookup_nil in Hi.
  - cbn [Memo.calls]. destruct (call_ok tb args Hok) as (Hok1 & Hhere & Hmono1).
    destruct (Memo.call instanceId fn tb args) as [h1 tb1]. cbn [fst snd] in *.
    destruct (IH tb1 Hok1) as (Hok2 & Hmono2 & Hrest).
    destruct (Memo.calls instanceId fn tb1 l) as [hs tb2]. cbn [fst snd] in *.
    repeat split; [apply Hok2..|auto|].
    intros [|i] args' h Hi Hh; cbn in Hi, Hh.
    + injection Hi as <-. injection Hh as <-. auto.
    + eauto.
Qed.

End MemoFacts.

(** C6.  Building the wrapped function runs [fn] not at all.  Then, in any
    row of calls during which no subscriber detaches, two calls with equal
    arguments return the same stream, that stream is the one [fn] built for
    these arguments, and [fn] has run at most once for them (and not at all
    for arguments never passed). *)
Theorem memo_shares_one_stream {Args T : Type} `{Countable Args}
    (instanceId : string) (fn : Args -> Rx.Observable T) (l : list Args) :
  Memo.streams (Memo.construct (Args := Args) (T := T)) = []
  /\ (forall i j args h1 h2,
        l !! i = Some args -> l !! j = Some args ->
        (Memo.calls instanceId fn Memo.construct l).1 !! i = Some h1 ->
        (Memo.calls instanceId fn Memo.construct l).1 !! j = Some h2 ->
        h1 = h2
        /\ Memo.stream_of (Memo.calls instanceId fn Memo.construct l).2 h1 = Some (fn args))
  /\ (forall args,
        (Memo.invocations (Memo.calls instanceId fn Memo.construct l).2 args <= 1)%nat
        /\ (~ In args l ->
            Memo.invocations (Memo.calls instanceId fn Memo.construct l).2 args = 0%nat)).
Proof.
  split; [reflexivity|].
  destruct (calls_ok instanceId fn l Memo.construct (construct_ok instanceId fn))
    as ([Hent Hinv] & _ & Hret).
  split.
  - intros i j args h1 h2 Hi Hj H1 H2.
    pose proof (Hret i args h1 Hi H1) as E1. pose proof (Hret j args h2 Hj H2) as E2.
    split; [congruence|]. unfold Memo.stream_of. now rewrite (Hent _ _ E1).
  - intros args. rewrite Hinv. split.
    + destruct (Memo.entries _ !! _); lia.
    + intros Hnot.
      destruct (Memo.entries (Memo.calls instanceId fn Memo.construct l).2 !! (instanceId, args))
        as [h|] eqn:E; [|reflexivity].
      exfalso. apply Hnot. clear Hnot Hret Hinv Hent.
      assert (Hgen : forall tb, Memo.entries (Memo.calls instanceId fn tb l).2 !! (instanceId, args)
                                = Some h ->
                                Memo.entries tb !! (instanceId, args) = Some h \/ In args l).
      { clear E. induction l as [|a l' IH]; intros tb Hh; [now left|].
        cbn [Memo.calls] in Hh. unfold Memo.call in Hh.
        destruct (Memo.entries tb !! (instanceId, a)) as [h0|] eqn:E0.
        - destruct (Memo.calls instanceId fn tb l') as [hs tb2] eqn:Ec. cbn in Hh.
          specialize (IH tb). rewrite Ec in IH. destruct (IH Hh); [now left|right; now right].
        - match type of Hh with
          | context [Memo.calls instanceId fn ?tb1 l'] =>
              specialize (IH tb1); destruct (Memo.calls instanceId fn tb1 l') as [hs tb2]
          end.
          cbn in Hh, IH. destruct (IH Hh) as [Hin|Hin]; [|right; now right].
          destruct (decide (a = args)) as [->|Hne]; [right; now left|].
          rewrite lookup_insert_ne in Hin by congruence. now left. }
      destruct (Hgen _ E) as [Hc|Hc]; [|exact Hc].
      cbn in Hc. now rewrite lookup_empty in Hc.
Qed.

(** The pool-info reader asked for DOT, KSM and DOT again: the first and the
    third call return one stream, and the query for DOT is built once. *)
Lemma memo_shares_one_stream_witness :
  let api := Scenario.token_chain Scenario.two_pools in
  let fn := fun token : string => getPoolInfo "polkadot" api token None in
  (0%nat = 0%nat
   /\ Memo.stream_of (Memo.calls "polkadot" fn Memo.construct ["DOT"; "KSM"; "DOT"]).2 0
      = Some (fn "DOT"))
  /\ (Memo.invocations (Memo.calls "polkadot" fn Memo.construct ["DOT"; "KSM"; "DOT"]).2 "DOT"
      <= 1)%nat.
Proof.
  intros api fn.
  pose proof (memo_shares_one_stream "polkadot" fn ["DOT"; "KSM"; "DOT"]) as (_ & Hsame & Honce).
  split.
  - apply (Hsame 0%nat 2%nat "DOT" 0%nat 0%nat); [reflexivity|reflexivity|..];
      vm_compute; reflexivity.
  - apply (Honce "DOT").
Defined.

(** Once the last subscriber has detached, the next call runs [fn] again and
    returns a new stream. *)
Example memo_release_runs_again :
  let api := Scenario.token_chain Scenario.two_pools in
  let fn := fun token : string => getPoolInfo "polkadot" api token None in
  let tb1 := (Memo.call "polkadot" fn Memo.construct "DOT").2 in
  let tb2 := Memo.release "polkadot" tb1 "DOT" in
  (Memo.call "polkadot" fn tb1 "DOT").1 = 0%nat
  /\ (Memo.call "polkadot" fn tb2 "DOT").1 = 1%nat
  /\ Memo.invocations (Memo.call "polkadot" fn tb2 "DOT").2 "DOT" = 2%nat.
Proof. vm_compute. repeat split. Qed.

(** * Further properties of convert.ts *)

(** ** [map]: terminal notifications and total callbacks *)

Section MapRelay.
Import Rx.
Context {A B : Type}.
Variable project : A -> completion B.
Variable source : Observable A.

Lemma observe_split_live {T : Type} (o : Observable T) s k
    (l1 l2 : list (notification T)) (n : notification T) :
  observe o s k = l1 ++ n :: l2 -> existsb is_terminal l1 = false.
Proof.
  unfold observe. destruct (existsb is_terminal (produced o s k)).
  - intros H. destruct l1; discriminate.
  - apply upto_terminal_split.
Qed.

(** While the callback returns on every value delivered so far, each
    notification of the source, terminal ones included, is answered at the
    same tick. *)
Lemma map_relay (n : notification A) (s k : nat) :
  In n (observe source s k) ->
  (forall j q, (j <= k)%nat -> In (Next q) (observe source s j) ->
               exists c, project q = Return c) ->
  In (project_notification project n) (map project source s k).
Proof.
  intros Hn Htot. unfold map. unfold observe at 1.
  assert (Hpast : existsb is_terminal
            (produced (fun s k => List.map (project_notification project) (observe source s k)) s k)
          = false).
  { destruct (existsb _ _) eqn:E; [|reflexivity]. exfalso.
    apply existsb_exists in E as (m & Hm & Ht).
    apply produced_In in Hm as (j & Hj & Hm).
    apply in_map_iff in Hm as (n0 & <- & Hn0).
    destruct (observe_earlier _ _ _ j _ Hn Hj) as [Heq Hlive].
    rewrite Heq in Hn0.
    pose proof (existsb_false_In _ _ _ Hlive Hn0) as Hnt.
    destruct n0 as [q| |]; try discriminate.
    destruct (Htot j q) as [c Hc]; [lia|now rewrite Heq|].
    cbn in Ht. rewrite Hc in Ht. discriminate. }
  rewrite Hpast.
  destruct (in_split _ _ Hn) as (l1 & l2 & Heq).
  pose proof (observe_split_live _ _ _ _ _ _ Heq) as Hl1.
  rewrite Heq, List.map_app, upto_terminal_app.
  assert (Hquiet : existsb is_terminal (List.map (project_notification project) l1) = false).
  { destruct (existsb is_terminal (List.map (project_notification project) l1)) eqn:E;
      [|reflexivity]. exfalso.
    apply existsb_exists in E as (m & Hm & Ht).
    apply in_map_iff in Hm as (n0 & <- & Hn0).
    pose proof (existsb_false_In _ _ _ Hl1 Hn0) as Hnt.
    destruct n0 as [q| |]; try discriminate.
    destruct (Htot k q) as [c Hc]; [lia| |].
    + rewrite Heq. apply in_or_app. now left.
    + cbn in Ht. rewrite Hc in Ht. discriminate. }
  rewrite Hquiet. apply in_or_app. right. cbn [List.map upto_terminal].
  destruct (is_terminal (project_notification project n)); now left.
Qed.

(** An error of the mapped stream is an error of the source or what the
    callback threw on a value of the source, at the same tick. *)
Lemma map_Error_inv (e : exn) (s k : nat) :
  In (Error e) (map project source s k) ->
  In (Error e) (observe source s k)
  \/ exists a, In (Next a) (observe source s k) /\ project a = Throw e.
Proof.
  intros H. apply observe_In, in_map_iff in H as (n & Hn & Hin).
  destruct n as [a|e'|]; cbn in Hn.
  - right. exists a. split; [exact Hin|]. destruct (project a); congruence.
  - left. congruence.
  - discriminate.
Qed.

Lemma map_Complete_inv (s k : nat) :
  In Complete (map project source s k) -> In Complete (observe source s k).
Proof.
  intros H. apply observe_In, in_map_iff in H as (n & Hn & Hin).
  destruct n as [a|e'|]; cbn in Hn; [destruct (project a)|..]; try discriminate.
  exact Hin.
Qed.

Lemma existsb_upto_terminal {T : Type} (l : list (notification T)) :
  existsb is_terminal (upto_terminal l) = existsb is_terminal l.
Proof.
  induction l as [|n l IH]; [reflexivity|]. cbn [upto_terminal existsb].
  destruct (is_terminal n) eqn:E; cbn [existsb]; rewrite E; [reflexivity|exact IH].
Qed.

Lemma upto_terminal_idem {T : Type} (l : list (notification T)) :
  upto_terminal (upto_terminal l) = upto_terminal l.
Proof.
  induction l as [|n l IH]; [reflexivity|]. cbn [upto_terminal].
  destruct (is_terminal n) eqn:E; cbn [upto_terminal]; rewrite E; [reflexivity|now rewrite IH].
Qed.

Lemma observe_upto_terminal {T : Type} (o : Observable T) s k :
  upto_terminal (observe o s k) = observe o s k.
Proof.
  unfold observe. destruct (existsb _ _); [reflexivity|apply upto_terminal_idem].
Qed.

(** A callback that always returns changes the values and nothing else. *)
Hypothesis project_total : forall a, exists b, project a = Return b.

Lemma project_notification_total (n : notification A) :
  is_terminal (project_notification project n) = is_terminal n.
Proof.
  destruct n as [a| |]; try reflexivity. cbn. destruct (project_total a) as [b ->]. reflexivity.
Qed.

Lemma map_total (s k : nat) :
  map project source s k = List.map (project_notification project) (observe source s k).
Proof.
  unfold map. unfold observe at 1. rewrite produced_map.
  assert (Hmap : forall l : list (notification A),
            existsb is_terminal (List.map (project_notification project) l)
            = existsb is_terminal l).
  { induction l as [|n l IH]; [reflexivity|]. cbn [List.map existsb].
    now rewrite project_notification_total, IH. }
  assert (Hcut : forall l : list (notification A),
            upto_terminal (List.map (project_notification project) l)
            = List.map (project_notification project) (upto_terminal l)).
  { induction l as [|n l IH]; [reflexivity|]. cbn [List.map upto_terminal].
    rewrite project_notification_total.
    destruct (is_terminal n); [reflexivity|]. cbn [List.map]. now rewrite IH. }
  rewrite Hmap, existsb_upto_terminal, Hcut, observe_upto_terminal.
  unfold observe. now destruct (existsb is_terminal (produced source s k)).
Qed.

End MapRelay.

(** ** The pool-info reader relays its query *)




(** ** The price deriver: what it emits and how it fails *)

Section PriceValues.
#[local] Open Scope Z_scope.

Lemma quot_abs_le (a b : Z) : b <> 0 -> Z.abs (Z.quot a b) <= Z.abs a.
Proof.
  intros Hb. rewrite <- Z.quot_abs by exact Hb.
  rewrite Z.quot_div_nonneg by lia.
  apply Z.div_le_upper_bound; [lia|]. nia.
Qed.

Lemma quot_bracket (a b : Z) :
  0 <= a -> 0 < b -> Z.quot a b * b <= a < (Z.quot a b + 1) * b.
Proof.
  intros Ha Hb. rewrite Z.quot_div_nonneg by lia.
  pose proof (Z.mul_div_le a b Hb). pose proof (Z.mul_succ_div_gt a b Hb). lia.
Qed.

(** What the callback returns, when it returns. *)
Lemma convertPrice_value (p : convertPool) (v : jsvalue) :
  convertPrice p = Return v ->
  safe_pool p
  /\ (p.(vtoken_pool) = 0 /\ v = JNumber JS.zero
      \/ p.(vtoken_pool) <> 0 /\ v = JBN (Z.quot p.(token_pool) p.(vtoken_pool))).
Proof.
  intros Hv. pose proof (convertPrice_returns_safe _ _ _ Hv) as Hs. split; [exact Hs|].
  unfold convertPrice in Hv. rewrite (convertPrice_with_safe _ _ Hs) in Hv.
  destruct (Z.eqb_spec (vtoken_pool p) 0) as [E|E].
  - left. split; [exact E|]. congruence.
  - right. split; [exact E|]. unfold BN.div in Hv.
    destruct (Z.eqb_spec (vtoken_pool p) 0); [contradiction|]. cbn in Hv. congruence.
Qed.

(** What the callback throws, when it throws: never the assertion of the
    division. *)
Lemma convertPrice_throw (p : convertPool) (e : exn) :
  convertPrice p = Throw e ->
  ~ safe_pool p /\ e = AssertionError "Number can only safely store up to 53 bits".
Proof.
  intros He. unfold safe_pool.
  destruct (Z.lt_ge_cases (Z.abs (token_pool p)) (2 ^ 53)) as [Ht|Ht];
    [destruct (Z.lt_ge_cases (Z.abs (vtoken_pool p)) (2 ^ 53)) as [Hu|Hu]|].
  - exfalso. unfold convertPrice in He.
    rewrite (convertPrice_with_safe _ p (conj Ht Hu)) in He. unfold BN.div in He.
    destruct (Z.eqb_spec (vtoken_pool p) 0); [discriminate|].
    destruct (Z.eqb_spec (vtoken_pool p) 0); [contradiction|discriminate].
  - unfold convertPrice in He. rewrite convertPrice_with_unsafe in He by (right; exact Hu).
    split; [lia|congruence].
  - unfold convertPrice in He. rewrite convertPrice_with_unsafe in He by (left; exact Ht).
    split; [lia|congruence].
Qed.

End PriceValues.

(** X2.  Every value that [getConvertPriceInfo] emits is the price of a pool
    state delivered at that tick whose two pool fields are below [2^53] in
    magnitude: the number [0] when [vtoken_pool] is zero, and otherwise a
    [BN] object holding the quotient of [token_pool] by [vtoken_pool]
    truncated toward zero, never larger in magnitude than [token_pool], and
    for a pool of non-negative amounts the largest integer whose product
    with [vtoken_pool] does not exceed [token_pool].  No other number is
    ever emitted. *)
Theorem getConvertPriceInfo_values {vToken BlockHash : Type}
    (instanceId : string) (api : ApiInterfaceRx vToken BlockHash)
    (tokenSymbol : vToken) (preBlockHash : option BlockHash)
    (s k : nat) (v : jsvalue) :
  In (Rx.Next v) (getConvertPriceInfo instanceId api tokenSymbol preBlockHash s k) ->
  exists p,
    In (Rx.Next p) (getPoolInfo instanceId api tokenSymbol preBlockHash s k)
    /\ safe_pool p
    /\ (p.(vtoken_pool) = 0%Z /\ v = JNumber JS.zero
        \/ exists b,
             p.(vtoken_pool) <> 0%Z /\ v = JBN b
             /\ b = Z.quot p.(token_pool) p.(vtoken_pool)
             /\ (Z.abs b <= Z.abs p.(token_pool))%Z
             /\ ((0 <= p.(token_pool))%Z -> (0 < p.(vtoken_pool))%Z ->
                 (b * p.(vtoken_pool) <= p.(token_pool) < (b + 1) * p.(vtoken_pool))%Z)).
Proof.
  intros Hv. rewrite getConvertPriceInfo_map in Hv.
  apply map_Next_inv in Hv as (p & Hp & Hret). rewrite getPoolInfo_sealed in Hp.
  exists p. split; [exact Hp|].
  destruct (convertPrice_value _ _ Hret) as [Hs [[Hz ->]|[Hnz ->]]].
  - split; [exact Hs|]. left. split; [exact Hz|reflexivity].
  - split; [exact Hs|]. right. exists (Z.quot (token_pool p) (vtoken_pool p)).
    split; [exact Hnz|]. split; [reflexivity|]. split; [reflexivity|].
    split; [now apply quot_abs_le|]. intros Ht Hu. now apply quot_bracket.
Qed.

Lemma getConvertPriceInfo_values_witness :
  let api := Scenario.token_chain Scenario.two_pools in
  exists p,
    In (Rx.Next p) (getPoolInfo "polkadot" api "KSM" None 0 0)
    /\ safe_pool p
    /\ (p.(vtoken_pool) = 0%Z /\ JBN 4 = JNumber JS.zero
        \/ exists b,
             p.(vtoken_pool) <> 0%Z /\ JBN 4 = JBN b
             /\ b = Z.quot p.(token_pool) p.(vtoken_pool)
             /\ (Z.abs b <= Z.abs p.(token_pool))%Z
             /\ ((0 <= p.(token_pool))%Z -> (0 < p.(vtoken_pool))%Z ->
                 (b * p.(vtoken_pool) <= p.(token_pool) < (b + 1) * p.(vtoken_pool))%Z)).
Proof.
  intros api.
  apply (getConvertPriceInfo_values "polkadot" api "KSM" None 0 0 (JBN 4)).
  vm_compute. left. reflexivity.
Defined.

(** X3.  An error of [getConvertPriceInfo] is either the error that the pool
    query delivered at that tick, handed on as it is, or the assertion of
    [toNumber] on a pool state delivered at that tick with a pool field of
    [2^53] or more in magnitude.  The stream raises no other error of its
    own; in particular the division never fails. *)
Theorem getConvertPriceInfo_errors {vToken BlockHash : Type}
    (instanceId : string) (api : ApiInterfaceRx vToken BlockHash)
    (tokenSymbol : vToken) (preBlockHash : option BlockHash)
    (s k : nat) (e : exn) :
  In (Rx.Error e) (getConvertPriceInfo instanceId api tokenSymbol preBlockHash s k) ->
  In (Rx.Error e) (getPoolInfo instanceId api tokenSymbol preBlockHash s k)
  \/ (e = AssertionError "Number can only safely store up to 53 bits"
      /\ exists p, In (Rx.Next p) (getPoolInfo instanceId api tokenSymbol preBlockHash s k)
                   /\ ~ safe_pool p).
Proof.
  intros He. rewrite getConvertPriceInfo_map in He.
  apply map_Error_inv in He as [He|(p & Hp & Hthrow)].
  - left. now rewrite getPoolInfo_sealed in He.
  - right. rewrite getPoolInfo_sealed in Hp.
    destruct (convertPrice_throw _ _ Hthrow) as [Hu ->]. eauto.
Qed.

Lemma getConvertPriceInfo_errors_witness :
  let p := Scenario.pool_state 1000 100 in
  let api := Scenario.failing_chain p p in
  In (Rx.Error (ChainError "connection lost")) (getPoolInfo "polkadot" api "DOT" None 0 1)
  \/ (ChainError "connection lost"
      = AssertionError "Number can only safely store up to 53 bits"
      /\ exists q, In (Rx.Next q) (getPoolInfo "polkadot" api "DOT" None 0 1)
                   /\ ~ safe_pool q).
Proof.
  intros p api.
  apply (getConvertPriceInfo_errors "polkadot" api "DOT" None 0 1 (ChainError "connection lost")).
  vm_compute. left. reflexivity.
Defined.

(** X4.  While every pool state delivered so far is within the safe range,
    [getConvertPriceInfo] hands on the end of the pool stream at the tick at
    which it comes: an error of the query as that same error, a completion
    as a completion. *)
Theorem getConvertPriceInfo_relays_end {vToken BlockHash : Type}
    (instanceId : string) (api : ApiInterfaceRx vToken BlockHash)
    (tokenSymbol : vToken) (preBlockHash : option BlockHash) (s k : nat) :
  (forall j q, (j <= k)%nat ->
     In (Rx.Next q) (getPoolInfo instanceId api tokenSymbol preBlockHash s j) -> safe_pool q) ->
  (forall e,
     In (Rx.Error e) (getPoolInfo instanceId api tokenSymbol preBlockHash s k) ->
     In (Rx.Error e) (getConvertPriceInfo instanceId api tokenSymbol preBlockHash s k))
  /\ (In Rx.Complete (getPoolInfo instanceId api tokenSymbol preBlockHash s k) ->
      In Rx.Complete (getConvertPriceInfo instanceId api tokenSymbol preBlockHash s k)).
Proof.
  intros Hsafe.
  assert (Htot : forall j q, (j <= k)%nat ->
            In (Rx.Next q) (Rx.observe (getPoolInfo instanceId api tokenSymbol preBlockHash) s j) ->
            exists c, convertPrice q = Return c).
  { intros j q Hj Hq. rewrite getPoolInfo_sealed in Hq.
    pose proof (Hsafe j q Hj Hq) as Hs. unfold convertPrice.
    rewrite (convertPrice_with_safe _ _ Hs). unfold BN.div.
    destruct (vtoken_pool q =? 0)%Z; cbn; eauto. }
  rewrite getConvertPriceInfo_map. split.
  - intros e He. rewrite <- getPoolInfo_sealed in He.
    exact (map_relay convertPrice _ (Rx.Error e) s k He Htot).
  - intros Hc. rewrite <- getPoolInfo_sealed in Hc.
    exact (map_relay convertPrice _ Rx.Complete s k Hc Htot).
Qed.

Lemma getConvertPriceInfo_relays_end_witness :
  let p := Scenario.pool_state 1000 100 in
  let api := Scenario.failing_chain p p in
  In (Rx.Error (ChainError "connection lost"))
     (getConvertPriceInfo "polkadot" api "DOT" None 0 1)
  /\ In Rx.Complete (getConvertPriceInfo "polkadot" api "DOT" (Some "0xweekago") 0 0).
Proof.
  intros p api. split.
  - apply (proj1 (getConvertPriceInfo_relays_end "polkadot" api "DOT" None 0 1
                    ltac:(intros j q Hj Hq;
                          assert (j = 0 \/ j = 1)%nat as [-> | ->] by lia;
                          vm_compute in Hq; destruct Hq as [Hq|[]];
                          [injection Hq as <-; split; vm_compute; reflexivity
                          |discriminate Hq]))).
    vm_compute. left. reflexivity.
  - apply (proj2 (getConvertPriceInfo_relays_end "polkadot" api "DOT" (Some "0xweekago") 0 0
                    ltac:(intros j q Hj Hq; assert (j = 0)%nat as -> by lia;
                          vm_compute in Hq; destruct Hq as [Hq|[Hq|[]]];
                          [injection Hq as <-; split; vm_compute; reflexivity
                          |discriminate Hq]))).
    vm_compute. right. left. reflexivity.
Defined.

(** X5.  The number that the rate formula reads from an emitted price is the
    price itself: converting an emitted value to a number loses nothing, as
    the way back to a [BN] shows. *)
Theorem getConvertPriceInfo_exact_number {vToken BlockHash : Type}
    (instanceId : string) (api : ApiInterfaceRx vToken BlockHash)
    (tokenSymbol : vToken) (preBlockHash : option BlockHash)
    (s k : nat) (v : jsvalue) :
  In (Rx.Next v) (getConvertPriceInfo instanceId api tokenSymbol preBlockHash s k) ->
  exists b, BN.ofNumber (ToNumber v) = Return b
            /\ (v = JBN b \/ v = JNumber JS.zero /\ b = 0%Z).
Proof.
  intros Hv. rewrite getConvertPriceInfo_map in Hv.
  apply map_Next_inv in Hv as (p & _ & Hret).
  destruct (convertPrice_value _ _ Hret) as [[Ht Hu] [[Hz ->]|[Hnz ->]]].
  - exists 0%Z. split; [reflexivity|]. right. split; reflexivity.
  - exists (Z.quot (token_pool p) (vtoken_pool p)). split; [|now left].
    cbn [ToNumber]. unfold BN.coerce. apply ofNumber_ofZ.
    pose proof (quot_abs_le (token_pool p) (vtoken_pool p) Hnz). lia.
Qed.

Lemma getConvertPriceInfo_exact_number_witness :
  let api := Scenario.token_chain Scenario.two_pools in
  exists b, BN.ofNumber (ToNumber (JBN 10)) = Return b
            /\ (JBN 10 = JBN b \/ JBN 10 = JNumber JS.zero /\ b = 0%Z).
Proof.
  intros api.
  apply (getConvertPriceInfo_exact_number "polkadot" api "DOT" None 0 0 (JBN 10)).
  vm_compute. left. reflexivity.
Defined.

(** ** The annualized-rate deriver: where a rate comes from *)

Lemma annualizedRate_total (prices : list jsvalue) :
  exists r, annualizedRate prices = Return r.
Proof.
  unfold annualizedRate, annualizedRate_with. destruct (strict_neq_zero _); eauto.
Qed.

Section RateDeriver.
Import Rx.
Context {vToken BlockHash : Type}.
Variable getDesignatedBlockHash :
  string -> ApiInterfaceRx vToken BlockHash -> unit -> Observable BlockHash.
Variable instanceId : string.
Variable api : ApiInterfaceRx vToken BlockHash.
Variable tokenSymbol : vToken.

Lemma pricePairs_sealed (s k : nat) :
  observe (pricePairs getDesignatedBlockHash instanceId api tokenSymbol) s k
  = pricePairs getDesignatedBlockHash instanceId api tokenSymbol s k.
Proof. unfold pricePairs. apply combineLatest_sealed. Qed.

(** The rate stream is the pair stream, every pair replaced by its rate. *)
Lemma getAnnualizedRate_image (s k : nat) :
  getAnnualizedRate getDesignatedBlockHash instanceId api tokenSymbol s k
  = List.map (project_notification annualizedRate)
             (pricePairs getDesignatedBlockHash instanceId api tokenSymbol s k).
Proof.
  change (getAnnualizedRate getDesignatedBlockHash instanceId api tokenSymbol)
    with (map annualizedRate (pricePairs getDesignatedBlockHash instanceId api tokenSymbol)).
  rewrite (map_total _ _ annualizedRate_total). now rewrite pricePairs_sealed.
Qed.

(** A pair holds a current price and a price at a block that the resolver
    named. *)
Lemma pricePairs_sources (s k : nat) (l : list jsvalue) :
  In (Next l) (pricePairs getDesignatedBlockHash instanceId api tokenSymbol s k) ->
  exists currentPrice historicalPrice,
    l = [currentPrice; historicalPrice]
    /\ (In (Next currentPrice) (getConvertPriceInfo instanceId api tokenSymbol None s k)
        \/ latest (getConvertPriceInfo instanceId api tokenSymbol None) s k
           = Some currentPrice)
    /\ exists j preHash t,
         (j <= k)%nat
         /\ In (Next preHash) (observe (getDesignatedBlockHash instanceId api tt) s j)
         /\ (t <= k - j)%nat
         /\ In (Next historicalPrice)
               (getConvertPriceInfo instanceId api tokenSymbol (Some preHash) (s + j) t).
Proof.
  intros Hl. unfold pricePairs in Hl.
  apply combineLatest_Next_latest in Hl as [Hlen Hel]. cbn [length] in Hlen.
  destruct l as [|c [|h [|? ?]]]; try discriminate.
  exists c, h. split; [reflexivity|].
  destruct (Hel 0%nat c eq_refl) as (o0 & Ho0 & Hc). injection Ho0 as <-.
  destruct (Hel 1%nat h eq_refl) as (o1 & Ho1 & Hh). injection Ho1 as <-.
  split.
  - destruct Hc as [Hc|Hc]; [left; now rewrite getConvertPriceInfo_sealed in Hc|now right].
  - assert (Hdel : exists j', (j' <= k)%nat
               /\ In (Next h)
                     (mergeMap (fun preHash =>
                                  getConvertPriceInfo instanceId api tokenSymbol (Some preHash))
                               (getDesignatedBlockHash instanceId api tt) s j')).
    { destruct Hh as [Hh|Hh].
      - exists k. split; [lia|]. now rewrite mergeMap_sealed in Hh.
      - apply latest_In in Hh as (j' & Hj' & Hh). exists j'. split; [lia|].
        now rewrite mergeMap_sealed in Hh. }
    destruct Hdel as (j' & Hj' & Hh').
    apply mergeMap_Next_inv in Hh' as (j & preHash & Hj & Hpre & Hin).
    rewrite getConvertPriceInfo_sealed in Hin.
    exists j, preHash, (j' - j)%nat. repeat split; [lia|exact Hpre|lia|exact Hin].
Qed.

End RateDeriver.

(** X6.  Every rate that [getAnnualizedRate] emits is the rate of a pair of
    exactly two prices: a price of the token that the current-price stream
    delivers at that tick or, failing that, the latest it delivered before,
    and a price of the token at a block hash that the resolver has named,
    delivered by the stream subscribed for that hash when it was named. *)
Theorem getAnnualizedRate_sources {vToken BlockHash : Type}
    (getDesignatedBlockHash :
       string -> ApiInterfaceRx vToken BlockHash -> unit -> Rx.Observable BlockHash)
    (instanceId : string) (api : ApiInterfaceRx vToken BlockHash) (tokenSymbol : vToken)
    (s k : nat) (rate : number) :
  In (Rx.Next rate) (getAnnualizedRate getDesignatedBlockHash instanceId api tokenSymbol s k) ->
  exists currentPrice historicalPrice,
    annualizedRate [currentPrice; historicalPrice] = Return rate
    /\ (In (Rx.Next currentPrice) (getConvertPriceInfo instanceId api tokenSymbol None s k)
        \/ Rx.latest (getConvertPriceInfo instanceId api tokenSymbol None) s k
           = Some currentPrice)
    /\ exists j preHash t,
         (j <= k)%nat
         /\ In (Rx.Next preHash) (Rx.observe (getDesignatedBlockHash instanceId api tt) s j)
         /\ (t <= k - j)%nat
         /\ In (Rx.Next historicalPrice)
               (getConvertPriceInfo instanceId api tokenSymbol (Some preHash) (s + j) t).
Proof.
  intros Hr. rewrite getAnnualizedRate_image in Hr.
  apply in_map_iff in Hr as ([l| |] & Hn & Hl); try discriminate.
  apply pricePairs_sources in Hl as (c & h & -> & Hc & Hh).
  exists c, h. split; [|split; [exact Hc|exact Hh]].
  cbn [Rx.project_notification] in Hn.
  destruct (annualizedRate [c; h]); congruence.
Qed.

Lemma getAnnualizedRate_sources_witness :
  let api := Scenario.chain (Scenario.pool_state 1200 100) (Scenario.pool_state 1000 100) in
  exists currentPrice historicalPrice,
    annualizedRate [currentPrice; historicalPrice]
    = Return (S754_finite false 5870763799965111 (-49))
    /\ (In (Rx.Next currentPrice) (getConvertPriceInfo "polkadot" api "DOT" None 0 0)
        \/ Rx.latest (getConvertPriceInfo "polkadot" api "DOT" None) 0 0 = Some currentPrice)
    /\ exists j preHash t,
         (j <= 0)%nat
         /\ In (Rx.Next preHash) (Rx.observe (Scenario.resolver "polkadot" api tt) 0 j)
         /\ (t <= 0 - j)%nat
         /\ In (Rx.Next historicalPrice)
               (getConvertPriceInfo "polkadot" api "DOT" (Some preHash) (0 + j) t).
Proof.
  intros api.
  apply (getAnnualizedRate_sources Scenario.resolver "polkadot" api "DOT" 0 0
           (S754_finite false 5870763799965111 (-49))).
  vm_compute. left. reflexivity.
Defined.

(** X7.  [getAnnualizedRate] answers the combined pairs one for one and adds
    nothing of its own: a rate is emitted at a tick exactly for each pair
    delivered at that tick, an error exactly when the pair stream delivers
    that error, a completion exactly when the pair stream completes.  The
    rate callback never throws, whatever the prices. *)
Theorem getAnnualizedRate_follows_pairs {vToken BlockHash : Type}
    (getDesignatedBlockHash :
       string -> ApiInterfaceRx vToken BlockHash -> unit -> Rx.Observable BlockHash)
    (instanceId : string) (api : ApiInterfaceRx vToken BlockHash) (tokenSymbol : vToken)
    (s k : nat) :
  (forall rate,
     In (Rx.Next rate) (getAnnualizedRate getDesignatedBlockHash instanceId api tokenSymbol s k)
     <-> exists prices,
           In (Rx.Next prices)
              (pricePairs getDesignatedBlockHash instanceId api tokenSymbol s k)
           /\ annualizedRate prices = Return rate)
  /\ (forall e,
     In (Rx.Error e) (getAnnualizedRate getDesignatedBlockHash instanceId api tokenSymbol s k)
     <-> In (Rx.Error e) (pricePairs getDesignatedBlockHash instanceId api tokenSymbol s k))
  /\ (In Rx.Complete (getAnnualizedRate getDesignatedBlockHash instanceId api tokenSymbol s k)
      <-> In Rx.Complete (pricePairs getDesignatedBlockHash instanceId api tokenSymbol s k)).
Proof.
  rewrite getAnnualizedRate_image. split; [|split].
  - intros rate. rewrite in_map_iff. split.
    + intros ([l| |] & Hn & Hl); try discriminate. exists l. split; [exact Hl|].
      cbn in Hn. destruct (annualizedRate l); congruence.
    + intros (l & Hl & Hr). exists (Rx.Next l). split; [|exact Hl]. cbn. now rewrite Hr.
  - intros e. rewrite in_map_iff. split.
    + intros ([l|e'|] & Hn & Hl); cbn in Hn; try discriminate.
      * destruct (annualizedRate_total l) as [r Hr]. rewrite Hr in Hn. discriminate.
      * congruence.
    + intros He. exists (Rx.Error e). split; [reflexivity|exact He].
  - rewrite in_map_iff. split.
    + intros ([l|e'|] & Hn & Hl); cbn in Hn; try discriminate; [|exact Hl].
      destruct (annualizedRate_total l) as [r Hr]. rewrite Hr in Hn. discriminate.
    + intros Hc. exists Rx.Complete. split; [reflexivity|exact Hc].
Qed.

(** X8.  When the historical price of a combined pair is the number zero, of
    either sign, which is what the price deriver emits for a historical pool
    without vTokens, the rate emitted at that tick is exactly [0], and it is
    so whatever the division would do: nothing is divided. *)
Theorem getAnnualizedRate_zero_number {vToken BlockHash : Type}
    (getDesignatedBlockHash :
       string -> ApiInterfaceRx vToken BlockHash -> unit -> Rx.Observable BlockHash)
    (instanceId : string) (api : ApiInterfaceRx vToken BlockHash) (tokenSymbol : vToken)
    (s k : nat) (prices : list jsvalue) (sign : bool) :
  In (Rx.Next prices) (pricePairs getDesignatedBlockHash instanceId api tokenSymbol s k) ->
  prices !! 1%nat = Some (JNumber (S754_zero sign)) ->
  In (Rx.Next JS.zero) (getAnnualizedRate getDesignatedBlockHash instanceId api tokenSymbol s k)
  /\ forall num_div, annualizedRate_with num_div prices = Return JS.zero.
Proof.
  intros Hl Hh.
  assert (Hcb : forall num_div, annualizedRate_with num_div prices = Return JS.zero).
  { intros num_div. unfold annualizedRate_with. rewrite Hh. now destruct sign. }
  split; [|exact Hcb]. rewrite getAnnualizedRate_image. apply in_map_iff.
  exists (Rx.Next prices). split; [|exact Hl].
  cbn [Rx.project_notification]. unfold annualizedRate. now rewrite Hcb.
Qed.

Lemma getAnnualizedRate_zero_number_witness :
  let api := Scenario.chain (Scenario.pool_state 1200 100) (Scenario.pool_state 1000 0) in
  In (Rx.Next JS.zero) (getAnnualizedRate Scenario.resolver "polkadot" api "DOT" 0 0)
  /\ forall num_div, annualizedRate_with num_div [JBN 12; JNumber JS.zero] = Return JS.zero.
Proof.
  intros api.
  apply (getAnnualizedRate_zero_number Scenario.resolver "polkadot" api "DOT" 0 0
           [JBN 12; JNumber JS.zero] false).
  - vm_compute. left. reflexivity.
  - reflexivity.
Defined.

(** ** A price that has not moved *)

Section FlatPrice.
#[local] Open Scope Z_scope.

Lemma sub_self_finite (sign : bool) (m : positive) (e : Z) :
  JS.sub (S754_finite sign m e) (S754_finite sign m e) = S754_zero false.
Proof.
  unfold JS.sub, SFsub.
  match goal with
  | |- binary_normalize _ _ (IntDef.Z.sub ?a ?a) _ _ = _ =>
      assert (IntDef.Z.sub a a = 0) as -> by apply Z.sub_diag
  end.
  reflexivity.
Qed.

Lemma annualizedRate_flat (b : BN.t) :
  0 < b < 2 ^ 53 -> annualizedRate [JBN b; JBN b] = Return JS.zero.
Proof.
  intros Hb. unfold annualizedRate, annualizedRate_with.
  cbn [lookup list_lookup from_option id strict_neq_zero ToNumber]. unfold BN.coerce.
  destruct b as [|m|m]; try lia.
  destruct (binary_round_safe false m) as (m' & e' & Hr & _); [lia|].
  unfold JS.ofZ at 1 2 3. unfold binary_normalize. rewrite Hr, sub_self_finite.
  reflexivity.
Qed.

End FlatPrice.

(** X9.  When the current and the historical price of a combined pair are
    the same positive [BN] price, the rate emitted at that tick is [0]. *)
Theorem getAnnualizedRate_flat_price {vToken BlockHash : Type}
    (getDesignatedBlockHash :
       string -> ApiInterfaceRx vToken BlockHash -> unit -> Rx.Observable BlockHash)
    (instanceId : string) (api : ApiInterfaceRx vToken BlockHash) (tokenSymbol : vToken)
    (s k : nat) (b : BN.t) :
  (0 < b < 2 ^ 53)%Z ->
  In (Rx.Next [JBN b; JBN b])
     (pricePairs getDesignatedBlockHash instanceId api tokenSymbol s k) ->
  In (Rx.Next JS.zero) (getAnnualizedRate getDesignatedBlockHash instanceId api tokenSymbol s k).
Proof.
  intros Hb Hl. rewrite getAnnualizedRate_image. apply in_map_iff.
  exists (Rx.Next [JBN b; JBN b]). split; [|exact Hl].
  cbn [Rx.project_notification]. now rewrite (annualizedRate_flat b Hb).
Qed.

Lemma getAnnualizedRate_flat_price_witness :
  let api := Scenario.chain (Scenario.pool_state 1200 100) (Scenario.pool_state 1200 100) in
  In (Rx.Next JS.zero) (getAnnualizedRate Scenario.resolver "polkadot" api "DOT" 0 0).
Proof.
  intros api.
  apply (getAnnualizedRate_flat_price Scenario.resolver "polkadot" api "DOT" 0 0 12%Z).
  - lia.
  - vm_compute. left. reflexivity.
Defined.

(** ** The batch variants: when a list comes, and when none will *)

Section CombineLatestFails.
Import Rx.
Context {A : Type}.

Lemma notify_all_no_Complete (st : CombineLatestSubscriber A) evs :
  (completions evs < active st)%nat -> ~ In Complete (notify_all st evs).2.
Proof.
  revert st. induction evs as [|[i [a|e|]] evs IH]; intros st Hc; [intros []| | |].
  - cbn [notify_all notify].
    specialize (IH {| values := <[i:=Some a]> (values st); active := active st |}).
    destruct (notify_all _ evs) as [st2 out2]. cbn [snd]. intros Hn.
    apply in_app_or in Hn as [Hn|Hn]; [|now apply IH in Hn].
    destruct (mapM id _); [destruct Hn as [[=]|[]]|destruct Hn].
  - cbn [notify_all notify]. specialize (IH st).
    destruct (notify_all st evs) as [st2 out2]. cbn [snd]. intros [[=]|Hn].
    now apply IH in Hn.
  - cbn [notify_all notify].
    specialize (IH {| values := values st; active := pred (active st) |}).
    destruct (notify_all _ evs) as [st2 out2]. cbn [snd]. intros Hn.
    unfold completions in Hc. cbn in Hc.
    apply in_app_or in Hn as [Hn|Hn].
    + destruct (Nat.eqb_spec (pred (active st)) 0); [lia|destruct Hn].
    + apply IH in Hn; [exact Hn|]. cbn. unfold completions. lia.
Qed.

(** Before a notification of a source, the other sources at most have
    completed: fewer completions than sources. *)
Lemma completions_before (observables : list (Observable A)) s k
    (before after : list (nat * notification A)) (i0 : nat) (n0 : notification A) :
  flat_map (arrivals observables s) (seq 0 (S k)) = before ++ (i0, n0) :: after ->
  (completions before < length observables)%nat.
Proof.
  intros Hthrough.
  assert (Hi0 : (i0 < length observables)%nat).
  { assert (In (i0, n0) (flat_map (arrivals observables s) (seq 0 (S k)))) as Hin
      by (rewrite Hthrough; apply in_or_app; right; now left).
    apply history_tags in Hin as (o & _ & Ho & _). now apply lookup_lt_Some in Ho. }
  assert (Hsplit : forall i,
            of_source i before ++ of_source i ((i0, n0) :: after)
            = upto_terminal (match observables !! i with
                             | Some o => produced o s (S k)
                             | None => []
                             end)).
  { intros i. rewrite <- of_source_app, <- Hthrough. apply of_source_through. }
  apply (completions_lt _ _ i0 Hi0).
  - intros i m Hin.
    assert (In (i, m) (flat_map (arrivals observables s) (seq 0 (S k)))) as Hin'
      by (rewrite Hthrough; apply in_or_app; now left).
    apply history_tags in Hin' as (o & _ & Ho & _). now apply lookup_lt_Some in Ho.
  - intros i. pose proof (Hsplit i) as Hs.
    pose proof (upto_terminal_one_terminal
                  (match observables !! i with
                   | Some o => produced o s (S k)
                   | None => []
                   end)) as Hone.
    rewrite <- Hs, List.filter_app, length_app in Hone.
    pose proof (complete_le_terminal (of_source i before)). lia.
  - pose proof (Hsplit i0) as Hs. rewrite of_source_cons, Nat.eqb_refl in Hs.
    cbn [app] in Hs. symmetry in Hs. apply upto_terminal_split in Hs.
    now rewrite (filter_complete_live _ Hs).
Qed.

(** A source that fails makes the result fail: by that tick the result has
    delivered an error, and afterwards it delivers nothing. *)
Lemma combineLatest_fails (observables : list (Observable A)) s k i o (e : exn) :
  observables !! i = Some o ->
  In (Error e) (observe o s k) ->
  (exists j e', (j <= k)%nat /\ In (Error e') (combineLatest observables s j))
  /\ (forall k', (k < k')%nat -> combineLatest observables s k' = []).
Proof.
  intros Ho He.
  assert (Hne : observables <> []) by (intros ->; discriminate).
  rewrite (combineLatest_snapshots _ Hne).
  assert (Hin : In (i, Error e) (arrivals observables s k)) by (apply arrivals_In; eauto).
  destruct (in_split _ _ Hin) as (P & R & HA).
  set (n := length observables).
  set (past := flat_map (arrivals observables s) (seq 0 k)).
  assert (Hthrough : flat_map (arrivals observables s) (seq 0 (S k))
                     = (past ++ P) ++ (i, Error e) :: R).
  { rewrite seq_S, flat_map_app. cbn [flat_map plus]. rewrite app_nil_r, HA.
    now rewrite <- app_assoc. }
  pose proof (completions_before _ _ _ _ _ _ _ Hthrough) as Hcount. fold n in Hcount.
  split.
  - assert (Hprod : produced (snapshots observables) s (S k)
                    = (notify_all (subscriber n) (past ++ P)).2
                      ++ Error e
                         :: (notify_all (notify_all (subscriber n) (past ++ P)).1 R).2).
    { rewrite produced_snapshots, Hthrough, notify_all_app. cbn [snd]. f_equal.
      cbn [notify_all notify]. now destruct (notify_all _ R). }
    destruct (upto_terminal_first (notify_all (subscriber n) (past ++ P)).2
                (notify_all (notify_all (subscriber n) (past ++ P)).1 R).2
                (Error e) eq_refl) as (n' & Hdel & Hterm & Hfrom).
    assert (Herr : exists e', n' = Error e').
    { apply in_app_or in Hfrom as [Hfrom|[<-|[]]]; [|eauto].
      destruct n' as [l|e'|]; [discriminate|eauto|].
      exfalso. revert Hfrom. apply notify_all_no_Complete. exact Hcount. }
    destruct Herr as [e' ->]. rewrite <- Hprod, <- delivered_upto_terminal in Hdel.
    apply in_flat_map in Hdel as (j & Hj & Hdel). apply in_seq in Hj.
    exists j, e'. split; [lia|exact Hdel].
  - intros k' Hk. apply (observe_closed (Error e) _ s k k'); [|reflexivity|exact Hk].
    unfold snapshots. fold n. fold past. rewrite HA, notify_all_app. cbn [snd].
    apply in_or_app. right. cbn [notify_all notify].
    destruct (notify_all _ R). now left.
Qed.

End CombineLatestFails.

Section FanOut.
Import Rx.
Context {Token T : Type}.
Variable query : Token -> Observable T.
Variable tokens : list Token.
Variables s k : nat.
Hypothesis query_sealed : forall token s j, observe (query token) s j = query token s j.

Lemma fan_out_emits :
  (forall token, In token tokens ->
     exists j x, (j <= k)%nat /\ In (Next x) (query token s j)) ->
  (exists token x, In token tokens /\ In (Next x) (query token s k)) ->
  (forall token j e, In token tokens -> (j <= k)%nat -> ~ In (Error e) (query token s j)) ->
  exists l, In (Next l) (combineLatest (List.map query tokens) s k).
Proof.
  intros Hall (t1 & x1 & Ht1 & Hx1) Hsound. apply combineLatest_emits.
  - intros i o Ho. rewrite list_lookup_fmap in Ho.
    destruct (tokens !! i) as [token|] eqn:E; [|discriminate].
    injection Ho as <-. destruct (Hall token) as (j & x & Hj & Hx).
    + apply list_elem_of_In. eapply list_elem_of_lookup_2. exact E.
    + exists j, x. split; [exact Hj|]. now rewrite query_sealed.
  - apply list_elem_of_In, list_elem_of_lookup_1 in Ht1 as [i Hi].
    exists i, (query t1), x1.
    split; [now rewrite list_lookup_fmap, Hi|now rewrite query_sealed].
  - intros i o j e Ho Hj He. rewrite list_lookup_fmap in Ho.
    destruct (tokens !! i) as [token|] eqn:E; [|discriminate].
    injection Ho as <-. rewrite query_sealed in He.
    apply (Hsound token j e); [|exact Hj|exact He].
    apply list_elem_of_In. eapply list_elem_of_lookup_2. exact E.
Qed.

Lemma fan_out_fails (token : Token) (e : exn) :
  In token tokens ->
  In (Error e) (query token s k) ->
  (exists j e', (j <= k)%nat /\ In (Error e') (combineLatest (List.map query tokens) s j))
  /\ (forall k', (k < k')%nat -> combineLatest (List.map query tokens) s k' = []).
Proof.
  intros Hin He. apply list_elem_of_In, list_elem_of_lookup_1 in Hin as [i Hi].
  apply (combineLatest_fails _ s k i (query token) e).
  - now rewrite list_lookup_fmap, Hi.
  - now rewrite query_sealed.
Qed.

End FanOut.

(** X10.  Each batch function emits a list as soon as it can: once the
    stream of every token of the list (given or defaulted) has delivered a
    value and none has failed, a list is emitted at every tick at which one
    of these streams delivers a value. *)
Theorem batch_emits_when_all_answered {vToken BlockHash : Type}
    (bifrostVtokenList : list vToken)
    (getDesignatedBlockHash :
       string -> ApiInterfaceRx vToken BlockHash -> unit -> Rx.Observable BlockHash)
    (instanceId : string) (api : ApiInterfaceRx vToken BlockHash)
    (vTokenArray : option (list vToken)) (s k : nat) :
  let vTokenList := default bifrostVtokenList vTokenArray in
  let ready := fun (T : Type) (query : vToken -> Rx.Observable T) =>
    (forall vtk, In vtk vTokenList ->
       exists j x, (j <= k)%nat /\ In (Rx.Next x) (query vtk s j))
    /\ (exists vtk x, In vtk vTokenList /\ In (Rx.Next x) (query vtk s k))
    /\ (forall vtk j e, In vtk vTokenList -> (j <= k)%nat ->
          ~ In (Rx.Error e) (query vtk s j)) in
  (ready convertPool (fun vtk => getPoolInfo instanceId api vtk None) ->
   exists l, In (Rx.Next l)
               (getAllVtokenConvertInfo bifrostVtokenList instanceId api vTokenArray s k))
  /\ (ready jsvalue (fun vtk => getConvertPriceInfo instanceId api vtk None) ->
      exists l, In (Rx.Next l)
                  (getAllConvertPriceInfo bifrostVtokenList instanceId api vTokenArray s k))
  /\ (ready number (fun vtk => getAnnualizedRate getDesignatedBlockHash instanceId api vtk) ->
      exists l, In (Rx.Next l)
                  (getAllAnnualizedRate bifrostVtokenList getDesignatedBlockHash instanceId api
                     vTokenArray s k)).
Proof.
  intros vTokenList ready. split; [|split]; intros (Hall & Hone & Hsound).
  - rewrite getAllVtokenConvertInfo_fan_out.
    apply (fan_out_emits (fun vtk => getPoolInfo instanceId api vtk None)); auto.
    intros; apply map_sealed.
  - rewrite getAllConvertPriceInfo_fan_out.
    apply (fan_out_emits (fun vtk => getConvertPriceInfo instanceId api vtk None)); auto.
    intros; apply map_sealed.
  - rewrite getAllAnnualizedRate_fan_out.
    apply (fan_out_emits
             (fun vtk => getAnnualizedRate getDesignatedBlockHash instanceId api vtk)); auto.
    intros; apply map_sealed.
Qed.

Lemma batch_emits_when_all_answered_witness :
  let api := Scenario.token_chain Scenario.two_pools in
  exists l, In (Rx.Next l)
              (getAllConvertPriceInfo ["DOT"; "KSM"] "polkadot" api None 0 0).
Proof.
  intros api.
  apply (proj1 (proj2 (batch_emits_when_all_answered ["DOT"; "KSM"] Scenario.resolver
                         "polkadot" api None 0 0))).
  split; [|split].
  - intros vtk [<-|[<-|[]]].
    + exists 0%nat, (JBN 10). split; [lia|]. vm_compute. left. reflexivity.
    + exists 0%nat, (JBN 4). split; [lia|]. vm_compute. left. reflexivity.
  - exists "DOT", (JBN 10). split; [now left|]. vm_compute. left. reflexivity.
  - intros vtk j e [<-|[<-|[]]] Hj He; assert (j = 0)%nat as -> by lia;
      vm_compute in He; destruct He as [[=]|[]].
Defined.

(** X11.  A batch function does not outlive a failed token: when the stream
    of one token of the list delivers an error, the batch stream has
    delivered an error by that tick, and no list is emitted afterwards,
    whatever the other tokens deliver. *)
Theorem batch_fails_with_any_token {vToken BlockHash : Type}
    (bifrostVtokenList : list vToken)
    (getDesignatedBlockHash :
       string -> ApiInterfaceRx vToken BlockHash -> unit -> Rx.Observable BlockHash)
    (instanceId : string) (api : ApiInterfaceRx vToken BlockHash)
    (vTokenArray : option (list vToken)) (s k : nat) (vtk : vToken) (e : exn) :
  In vtk (default bifrostVtokenList vTokenArray) ->
  let failed := fun (T : Type) (batch : Rx.Observable (list T)) =>
    (exists j e', (j <= k)%nat /\ In (Rx.Error e') (batch s j))
    /\ (forall k', (k < k')%nat -> batch s k' = []) in
  (In (Rx.Error e) (getPoolInfo instanceId api vtk None s k) ->
   failed convertPool (getAllVtokenConvertInfo bifrostVtokenList instanceId api vTokenArray))
  /\ (In (Rx.Error e) (getConvertPriceInfo instanceId api vtk None s k) ->
      failed jsvalue (getAllConvertPriceInfo bifrostVtokenList instanceId api vTokenArray))
  /\ (In (Rx.Error e) (getAnnualizedRate getDesignatedBlockHash instanceId api vtk s k) ->
      failed number
        (getAllAnnualizedRate bifrostVtokenList getDesignatedBlockHash instanceId api
           vTokenArray)).
Proof.
  intros Hin failed. split; [|split]; intros He; unfold failed.
  - rewrite getAllVtokenConvertInfo_fan_out.
    apply (fan_out_fails (fun vtk => getPoolInfo instanceId api vtk None) _ s k
             ltac:(intros; apply map_sealed) vtk e Hin He).
  - rewrite getAllConvertPriceInfo_fan_out.
    apply (fan_out_fails (fun vtk => getConvertPriceInfo instanceId api vtk None) _ s k
             ltac:(intros; apply map_sealed) vtk e Hin He).
  - rewrite getAllAnnualizedRate_fan_out.
    apply (fan_out_fails
             (fun vtk => getAnnualizedRate getDesignatedBlockHash instanceId api vtk) _ s k
             ltac:(intros; apply map_sealed) vtk e Hin He).
Qed.

Lemma batch_fails_with_any_token_witness :
  let p := Scenario.pool_state 1000 100 in
  let api := Scenario.failing_chain p p in
  (exists j e', (j <= 1)%nat
     /\ In (Rx.Error e') (getAllVtokenConvertInfo ["DOT"; "KSM"] "polkadot" api None 0 j))
  /\ (forall k', (1 < k')%nat ->
        getAllVtokenConvertInfo ["DOT"; "KSM"] "polkadot" api None 0 k' = []).
Proof.
  intros p api.
  apply (proj1 (batch_fails_with_any_token ["DOT"; "KSM"] Scenario.resolver "polkadot" api
                  None 0 1 "KSM" (ChainError "connection lost")
                  ltac:(right; left; reflexivity))).
  vm_compute. left. reflexivity.
Defined.

(** ** Where an error comes from, and what an error of a source does *)

Section OneTerminal.
Import Rx.
Context {T : Type}.

Lemma upto_terminal_unique (l : list (notification T)) (n1 n2 : notification T) :
  In n1 (upto_terminal l) -> In n2 (upto_terminal l) ->
  is_terminal n1 = true -> is_terminal n2 = true -> n1 = n2.
Proof.
  induction l as [|n l IH]; [intros []|]. cbn [upto_terminal].
  destruct (is_terminal n) eqn:E.
  - intros [<-|[]] [<-|[]] _ _. reflexivity.
  - intros [<-|H1] [<-|H2] T1 T2; try congruence. now apply IH.
Qed.

Lemma observe_one_terminal (o : Observable T) s k (n1 n2 : notification T) :
  In n1 (observe o s k) -> In n2 (observe o s k) ->
  is_terminal n1 = true -> is_terminal n2 = true -> n1 = n2.
Proof.
  unfold observe. destruct (existsb _ _); [intros []|apply upto_terminal_unique].
Qed.

End OneTerminal.

Section MergeMapErrors.
Import Rx.
Context {A B : Type}.
Variable project : A -> Observable B.
Variable source : Observable A.

(** An error of the result is an error of the source, or of an inner
    observable built for a value of the source. *)
Lemma mergeMap_Error_inv (e : exn) (s k : nat) :
  In (Error e) (mergeMap project source s k) ->
  In (Error e) (observe source s k)
  \/ exists j a, (j <= k)%nat /\ In (Next a) (observe source s j)
                 /\ In (Error e) (observe (project a) (s + j) (k - j)).
Proof.
  intros H. apply observe_In in H. apply in_app_or in H as [H|H].
  - right. apply in_flat_map in H as ([j inner] & Hsub & Hin).
    apply filter_In in Hin as [Hin _].
    apply inner_subscriptions_In in Hsub as (a & Hj & Ha & ->). eauto 6.
  - apply in_app_or in H as [H|H].
    + left. apply errors_of_inv in H as (e' & Heq & H). now injection Heq as ->.
    + destruct (_ && _); [destruct H as [[=]|[]]|destruct H].
Qed.

(** An error of the source ends the result with an error. *)
Lemma mergeMap_fails (e : exn) (s k : nat) :
  In (Error e) (observe source s k) ->
  (exists j e', (j <= k)%nat /\ In (Error e') (mergeMap project source s j))
  /\ (forall k', (k < k')%nat -> mergeMap project source s k' = []).
Proof.
  intros He. unfold mergeMap.
  match goal with |- context [observe ?r] => set (raw := r) end.
  assert (Hraw : In (Error e) (raw s k)).
  { unfold raw. apply in_or_app. right. apply in_or_app. left.
    unfold errors_of. apply list_elem_of_In, list_elem_of_omap. exists (Error e).
    split; [now apply list_elem_of_In|reflexivity]. }
  assert (Hcomplete : forall j, (j <= k)%nat -> ~ In Complete (raw s j)).
  { intros j Hj Hc. unfold raw in Hc. apply in_app_or in Hc as [Hc|Hc].
    - apply in_flat_map in Hc as ([j0 inner] & _ & Hc).
      apply filter_In in Hc as [_ Hc]. discriminate.
    - apply in_app_or in Hc as [Hc|Hc].
      + apply errors_of_inv in Hc as (e' & Heq & _). discriminate.
      + destruct (existsb is_complete (delivered source s j)) eqn:E; [|destruct Hc].
        apply existsb_exists in E as (n & Hn & Hnc). destruct n; try discriminate.
        apply delivered_In in Hn as (j' & Hj' & Hn).
        destruct (Nat.eq_dec j' k) as [->|Hne].
        * pose proof (observe_one_terminal _ _ _ _ _ Hn He eq_refl eq_refl). discriminate.
        * assert (observe (observe source) s k = []) as Hnil
            by (apply (observe_closed Complete _ s j' k); [exact Hn|reflexivity|lia]).
          rewrite observe_idem in Hnil. rewrite Hnil in He. destruct He. }
  split.
  - destruct (in_split _ _ Hraw) as (P & R & HA).
    destruct (upto_terminal_first (produced raw s k ++ P) R (Error e) eq_refl)
      as (n' & Hdel & Hterm & _).
    rewrite <- app_assoc, <- HA, <- produced_S, <- delivered_upto_terminal in Hdel.
    apply in_flat_map in Hdel as (j & Hj & Hdel). apply in_seq in Hj.
    destruct n' as [b|e'|]; [discriminate| |].
    + exists j, e'. split; [lia|exact Hdel].
    + exfalso. apply observe_In in Hdel. apply (Hcomplete j); [lia|exact Hdel].
  - intros k' Hk. apply (observe_closed (Error e) raw s k k'); auto.
Qed.

End MergeMapErrors.

(** X12.  [getBatchConvertPrice] fails for one of two reasons only: the
    stream of hash lists delivers that error at that tick, or the price
    stream of a hash of a list delivered so far does, the stream subscribed
    when the list came. *)
Theorem getBatchConvertPrice_errors {vToken BlockHash : Type}
    (instanceId : string) (api : ApiInterfaceRx vToken BlockHash) (tokenSymbol : vToken)
    (blockHashArray : Rx.Observable (list BlockHash)) (s k : nat) (e : exn) :
  In (Rx.Error e) (getBatchConvertPrice instanceId api tokenSymbol blockHashArray s k) ->
  In (Rx.Error e) (Rx.observe blockHashArray s k)
  \/ exists j blockHashList blockHash,
       (j <= k)%nat
       /\ In (Rx.Next blockHashList) (Rx.observe blockHashArray s j)
       /\ In blockHash blockHashList
       /\ In (Rx.Error e)
             (getConvertPriceInfo instanceId api tokenSymbol (Some blockHash) (s + j) (k - j)).
Proof.
  intros He.
  apply (mergeMap_Error_inv (pricesAt instanceId api tokenSymbol) blockHashArray) in He
    as [He|(j & blockHashList & Hj & Hlist & He)]; [now left|right].
  unfold pricesAt in He. rewrite combineLatest_sealed in He.
  apply pricesAt_Error_inv in He as (blockHash & Hin & He).
  exists j, blockHashList, blockHash. auto.
Qed.

Lemma getBatchConvertPrice_errors_witness :
  let api := Scenario.chain (Scenario.pool_state 1000 100)
                            (Scenario.pool_state 1000 9007199254740992) in
  let e := AssertionError "Number can only safely store up to 53 bits" in
  In (Rx.Error e) (Rx.observe Scenario.hash_lists 0 0)
  \/ exists j blockHashList blockHash,
       (j <= 0)%nat
       /\ In (Rx.Next blockHashList) (Rx.observe Scenario.hash_lists 0 j)
       /\ In blockHash blockHashList
       /\ In (Rx.Error e)
             (getConvertPriceInfo "polkadot" api "DOT" (Some blockHash) (0 + j) (0 - j)).
Proof.
  intros api e.
  apply (getBatchConvertPrice_errors "polkadot" api "DOT" Scenario.hash_lists 0 0 e).
  vm_compute. left. reflexivity.
Defined.

(** X13.  [getAnnualizedRate] fails for one of three reasons only: the
    current-price stream delivers that error at that tick, the block-hash
    resolver does, or the price stream at a block hash that the resolver
    named does.  The rate computation itself is never the cause. *)
Theorem getAnnualizedRate_errors {vToken BlockHash : Type}
    (getDesignatedBlockHash :
       string -> ApiInterfaceRx vToken BlockHash -> unit -> Rx.Observable BlockHash)
    (instanceId : string) (api : ApiInterfaceRx vToken BlockHash) (tokenSymbol : vToken)
    (s k : nat) (e : exn) :
  In (Rx.Error e) (getAnnualizedRate getDesignatedBlockHash instanceId api tokenSymbol s k) ->
  In (Rx.Error e) (getConvertPriceInfo instanceId api tokenSymbol None s k)
  \/ In (Rx.Error e) (Rx.observe (getDesignatedBlockHash instanceId api tt) s k)
  \/ exists j preHash,
       (j <= k)%nat
       /\ In (Rx.Next preHash) (Rx.observe (getDesignatedBlockHash instanceId api tt) s j)
       /\ In (Rx.Error e)
             (getConvertPriceInfo instanceId api tokenSymbol (Some preHash) (s + j) (k - j)).
Proof.
  intros He. rewrite getAnnualizedRate_image in He.
  apply in_map_iff in He as ([l|e'|] & Hn & He); cbn [Rx.project_notification] in Hn.
  - destruct (annualizedRate_total l) as [r Hr]. rewrite Hr in Hn. discriminate.
  - injection Hn as ->. unfold pricePairs in He.
    apply combineLatest_Error_inv in He as (i & o & Ho & He).
    destruct i as [|[|i]]; [| |discriminate]; injection Ho as <-.
    + left. now rewrite getConvertPriceInfo_sealed in He.
    + right. rewrite mergeMap_sealed in He.
      apply mergeMap_Error_inv in He as [He|(j & preHash & Hj & Hpre & He)]; [now left|right].
      rewrite getConvertPriceInfo_sealed in He. eauto.
  - discriminate.
Qed.

Lemma getAnnualizedRate_errors_witness :
  let p := Scenario.pool_state 1000 100 in
  let api := Scenario.failing_chain p p in
  let e := ChainError "connection lost" in
  In (Rx.Error e) (getConvertPriceInfo "polkadot" api "DOT" None 0 1)
  \/ In (Rx.Error e) (Rx.observe (Scenario.resolver "polkadot" api tt) 0 1)
  \/ exists j preHash,
       (j <= 1)%nat
       /\ In (Rx.Next preHash) (Rx.observe (Scenario.resolver "polkadot" api tt) 0 j)
       /\ In (Rx.Error e)
             (getConvertPriceInfo "polkadot" api "DOT" (Some preHash) (0 + j) (1 - j)).
Proof.
  intros p api e.
  apply (getAnnualizedRate_errors Scenario.resolver "polkadot" api "DOT" 0 1 e).
  vm_compute. left. reflexivity.
Defined.

(** X14.  An error of the stream of hash lists ends [getBatchConvertPrice]:
    by that tick the result has delivered an error, and afterwards it
    delivers nothing, whatever prices are still to come. *)
Theorem getBatchConvertPrice_fails_with_hashes {vToken BlockHash : Type}
    (instanceId : string) (api : ApiInterfaceRx vToken BlockHash) (tokenSymbol : vToken)
    (blockHashArray : Rx.Observable (list BlockHash)) (s k : nat) (e : exn) :
  In (Rx.Error e) (Rx.observe blockHashArray s k) ->
  (exists j e', (j <= k)%nat
     /\ In (Rx.Error e')
           (getBatchConvertPrice instanceId api tokenSymbol blockHashArray s j))
  /\ (forall k', (k < k')%nat ->
        getBatchConvertPrice instanceId api tokenSymbol blockHashArray s k' = []).
Proof.
  intros He.
  apply (mergeMap_fails (pricesAt instanceId api tokenSymbol) blockHashArray e s k He).
Qed.

Lemma getBatchConvertPrice_fails_with_hashes_witness :
  let api := Scenario.chain (Scenario.pool_state 1200 100) (Scenario.pool_state 1000 100) in
  let hashes : Rx.Observable (list string) :=
    fun _ k => match k with
               | 0 => [Rx.Next ["0xh1"]]
               | 1 => [Rx.Error (ChainError "no such block")]
               | _ => []
               end%nat in
  (exists j e', (j <= 1)%nat
     /\ In (Rx.Error e') (getBatchConvertPrice "polkadot" api "DOT" hashes 0 j))
  /\ (forall k', (1 < k')%nat -> getBatchConvertPrice "polkadot" api "DOT" hashes 0 k' = []).
Proof.
  intros api hashes.
  apply (getBatchConvertPrice_fails_with_hashes "polkadot" api "DOT" hashes 0 1
           (ChainError "no such block")).
  vm_compute. left. reflexivity.
Defined.

(** X15.  An error of the current-price stream or of the block-hash
    resolver ends [getAnnualizedRate]: by that tick the rate stream has
    delivered an error, and afterwards it delivers no rate. *)
Theorem getAnnualizedRate_fails_with_sources {vToken BlockHash : Type}
    (getDesignatedBlockHash :
       string -> ApiInterfaceRx vToken BlockHash -> unit -> Rx.Observable BlockHash)
    (instanceId : string) (api : ApiInterfaceRx vToken BlockHash) (tokenSymbol : vToken)
    (s k : nat) (e : exn) :
  In (Rx.Error e) (getConvertPriceInfo instanceId api tokenSymbol None s k)
  \/ In (Rx.Error e) (Rx.observe (getDesignatedBlockHash instanceId api tt) s k) ->
  (exists j e', (j <= k)%nat
     /\ In (Rx.Error e')
           (getAnnualizedRate getDesignatedBlockHash instanceId api tokenSymbol s j))
  /\ (forall k', (k < k')%nat ->
        getAnnualizedRate getDesignatedBlockHash instanceId api tokenSymbol s k' = []).
Proof.
  intros He.
  assert (Hpairs :
    (exists j e', (j <= k)%nat
       /\ In (Rx.Error e') (pricePairs getDesignatedBlockHash instanceId api tokenSymbol s j))
    /\ (forall k', (k < k')%nat ->
          pricePairs getDesignatedBlockHash instanceId api tokenSymbol s k' = [])).
  { unfold pricePairs. destruct He as [He|He].
    - apply (combineLatest_fails _ s k 0%nat
               (getConvertPriceInfo instanceId api tokenSymbol None) e); [reflexivity|].
      now rewrite getConvertPriceInfo_sealed.
    - apply (mergeMap_fails
               (fun preHash => getConvertPriceInfo instanceId api tokenSymbol (Some preHash)))
        in He as [(j & e' & Hj & He) _].
      rewrite <- mergeMap_sealed in He.
      match type of He with In _ (Rx.observe ?o _ _) =>
        destruct (combineLatest_fails
                    [getConvertPriceInfo instanceId api tokenSymbol None; o] s j 1%nat o e'
                    eq_refl He)
          as [(j' & e'' & Hj' & He') Hafter]
      end.
      split.
      + exists j', e''. split; [lia|exact He'].
      + intros k' Hk. apply Hafter. lia. }
  destruct Hpairs as [(j & e' & Hj & He') Hafter]. split.
  - exists j, e'. split; [exact Hj|]. rewrite getAnnualizedRate_image.
    apply in_map_iff. exists (Rx.Error e'). split; [reflexivity|exact He'].
  - intros k' Hk. rewrite getAnnualizedRate_image, (Hafter k' Hk). reflexivity.
Qed.

Lemma getAnnualizedRate_fails_with_sources_witness :
  let p := Scenario.pool_state 1000 100 in
  let api := Scenario.failing_chain p p in
  (exists j e', (j <= 1)%nat
     /\ In (Rx.Error e') (getAnnualizedRate Scenario.resolver "polkadot" api "DOT" 0 j))
  /\ (forall k', (1 < k')%nat ->
        getAnnualizedRate Scenario.resolver "polkadot" api "DOT" 0 k' = []).
Proof.
  intros p api.
  apply (getAnnualizedRate_fails_with_sources Scenario.resolver "polkadot" api "DOT" 0 1
           (ChainError "connection lost")).
  left. vm_compute. left. reflexivity.
Defined.
